(** * The feed-list editor script [_update_feeds.py]

    A shallow embedding of the one-shot editor that rewrites a marked
    region of [src/services/news.service.ts], and the properties of its
    region locator, its splice and its file traffic.

    Python text is modelled as a list of Unicode code points; the file
    system as a finite map from paths to files; the script itself as a
    computation in a state-and-exception monad over the world it runs in. *)

From Stdlib Require Import NArith Ascii String Lia.
From stdpp Require Import base option list gmap strings.

Local Open Scope nat_scope.
Local Open Scope list_scope.

(** ** Python [str] values *)

Module PyStr.

(** A [str] is a sequence of code points. *)
Definition codepoint : Type := N.
Definition text : Type := list codepoint.

Definition dquote : codepoint := 34%N.
Definition newline : codepoint := 10%N.
Definition backquote : codepoint := 96%N.

(** Literals.  The script's literals contain double quotes and no
    backquote; a literal is written here with a backquote wherever the
    script has a double quote, and [lit] puts the double quote back. *)
Definition code_of (a : ascii) : codepoint :=
  let c := N_of_ascii a in
  if N.eqb c backquote then dquote else c.

Fixpoint lit (s : string) : text :=
  match s with
  | EmptyString => []
  | String a s' => code_of a :: lit s'
  end.

(** A literal that ends in the escape [\n]. *)
Definition ln (s : string) : text := lit s ++ [newline].

(** [s.startswith(sub)], the test [str.index] makes at each position. *)
Fixpoint startswith (sub s : text) : bool :=
  match sub, s with
  | [], _ => true
  | _ :: _, [] => false
  | a :: sub', b :: s' => N.eqb a b && startswith sub' s'
  end.

(** Lowest offset at which [sub] starts in [s], if any. *)
Fixpoint find (sub s : text) : option nat :=
  if startswith sub s then Some 0
  else match s with
       | [] => None
       | _ :: s' => S <$> find sub s'
       end.

(** [s.index(sub, start)] for [start >= 0]: the lowest index [i >= start]
    with [s[i:i+len(sub)] == sub]; [None] stands for the [ValueError]
    raised when there is none (in particular when [start > len(s)]). *)
Definition index (s sub : text) (start : nat) : option nat :=
  if decide (start ≤ length s)
  then (λ i, start + i) <$> find sub (drop start s)
  else None.

(** [s[a:b]] for non-negative bounds; out-of-range bounds are clamped. *)
Definition slice (s : text) (a b : nat) : text := drop a (take b s).

(** [s[:b]] and [s[a:]]. *)
Definition slice_to (s : text) (b : nat) : text := take b s.
Definition slice_from (s : text) (a : nat) : text := drop a s.

End PyStr.

Import PyStr.

(** ** The script's constants *)

Definition filepath : string := "src/services/news.service.ts".

Definition old_start : text := lit "  // Human Side of Tech & Leadership".
Definition old_end_marker : text :=
  lit "url: `https://lilianweng.github.io/index.xml`,".

(** The literal [},] written twice in the script. *)
Definition closing_lit : text := lit "},".

Definition new_section : text :=
     ln "  // Cloud & Infrastructure Engineering"
  ++ ln "  {"
  ++ ln "    name: `Cloudflare Blog`,"
  ++ ln "    url: `https://blog.cloudflare.com/rss/`,"
  ++ ln "  },"
  ++ ln "  // Human Side of Tech & Leadership"
  ++ ln "  {"
  ++ ln "    name: `The Engineering Manager`,"
  ++ ln "    url: `https://theengineeringmanager.com/feed/`,"
  ++ ln "  },"
  ++ ln "  { name: `Rands in Repose`, url: `https://randsinrepose.com/feed/` },"
  ++ ln "  {"
  ++ ln "    name: `Irrational Exuberance (Will Larson)`,"
  ++ ln "    url: `https://lethain.com/feeds.xml`,"
  ++ ln "  },"
  ++ ln "  { name: `LeadDev`, url: `https://leaddev.com/feed` },"
  ++ ln "  { name: `StaffEng`, url: `https://staffeng.com/rss` },"
  ++ ln "  {"
  ++ ln "    name: `Charity Majors (CTO Craft)`,"
  ++ ln "    url: `https://charity.wtf/feed/`,"
  ++ ln "  },"
  ++ ln "  // Substack & Independent - Architecture & Leadership"
  ++ ln "  {"
  ++ ln "    name: `The Pragmatic Engineer`,"
  ++ ln "    url: `https://newsletter.pragmaticengineer.com/feed`,"
  ++ ln "  },"
  ++ ln "  { name: `ByteByteGo System Design`, url: `https://blog.bytebytego.com/feed` },"
  ++ ln "  { name: `Refactoring (Luca Rossi)`, url: `https://refactoring.fm/feed` },"
  ++ ln "  {"
  ++ ln "    name: `Tidy First? (Kent Beck)`,"
  ++ ln "    url: `https://tidyfirst.substack.com/feed`,"
  ++ ln "  },"
  ++ ln "  {"
  ++ ln "    name: `The Beautiful Mess (John Cutler)`,"
  ++ ln "    url: `https://cutlefish.substack.com/feed`,"
  ++ ln "  },"
  ++ ln "  { name: `Martin Fowler`, url: `https://martinfowler.com/feed.atom` },"
  ++ ln "  { name: `LangChain Blog`, url: `https://blog.langchain.dev/rss/` },"
  ++ ln "  // System Design & Architecture"
  ++ ln "  {"
  ++ ln "    name: `High Scalability`,"
  ++ ln "    url: `https://highscalability.com/feed/`,"
  ++ ln "  },"
  ++ ln "  {"
  ++ ln "    name: `InfoQ`,"
  ++ ln "    url: `https://feed.infoq.com/`,"
  ++ ln "  },"
  ++ ln "  {"
  ++ ln "    name: `The New Stack`,"
  ++ ln "    url: `https://thenewstack.io/feed/`,"
  ++ ln "  },"
  ++ ln "  {"
  ++ ln "    name: `Architecture Notes`,"
  ++ ln "    url: `https://architecturenotes.co/rss/`,"
  ++ ln "  },"
  ++ ln "  // AI Agents, LLMs & Research"
  ++ ln "  { name: `Google Research`, url: `https://research.google/blog/rss` },"
  ++ ln "  { name: `Hugging Face`, url: `https://huggingface.co/blog/feed.xml` },"
  ++ ln "  {"
  ++ ln "    name: `BAIR (Berkeley AI)`,"
  ++ ln "    url: `https://bair.berkeley.edu/blog/feed.xml`,"
  ++ ln "  },"
  ++ ln "  {"
  ++ ln "    name: `Lil'Log (Lilian Weng)`,"
  ++ ln "    url: `https://lilianweng.github.io/index.xml`,"
  ++ ln "  },"
  ++ ln "  {"
  ++ ln "    name: `Anthropic Research`,"
  ++ ln "    url: `https://www.anthropic.com/research/rss.xml`,"
  ++ ln "  },"
  ++ ln "  {"
  ++ ln "    name: `DeepMind Blog`,"
  ++ ln "    url: `https://deepmind.google/blog/rss.xml`,"
  ++ ln "  },"
  ++ ln "  {"
  ++ ln "    name: `Meta AI Blog`,"
  ++ ln "    url: `https://ai.meta.com/blog/rss/`,"
  ++ ln "  },"
  ++ ln "  {"
  ++ ln "    name: `AI Snake Oil`,"
  ++ ln "    url: `https://www.aisnakeoil.com/feed`,"
  ++ ln "  },"
  ++ ln "  {"
  ++ ln "    name: `Simon Willison's Weblog`,"
  ++ ln "    url: `https://simonwillison.net/atom/everything/`,"
  ++ lit "  },".

(** ** The world the script runs in *)

Module Py.

(** The exceptions the script can die of.  [ValueError] is what
    [str.index] raises when the substring is not found;
    [UnicodeDecodeError] and [UnicodeEncodeError], which Python makes
    subclasses of it, are kept apart.  The others are [OSError]s: three
    that [open] raises, and [OSError] itself for a device that gives up
    during a write. *)
Inductive exn : Type :=
| ValueError
| UnicodeDecodeError
| UnicodeEncodeError
| FileNotFoundError
| PermissionError
| IsADirectoryError
| OSError.

Inductive result (A : Type) : Type :=
| Ok (a : A)
| Raise (e : exn).
Global Arguments Ok {A} a.
Global Arguments Raise {A} e.

(** What a path names: a file of text, with its permission bits and the
    text that reading it in text mode with [encoding="utf-8"] yields; a
    file whose bytes are not UTF-8; a directory. *)
Inductive file : Type :=
| File (readable writable : bool) (data : text)
| Binary (readable writable : bool)
| Directory (readable writable : bool).

Definition readable (f : file) : bool :=
  match f with File r _ _ | Binary r _ | Directory r _ => r end.

Definition writable (f : file) : bool :=
  match f with File _ w _ | Binary _ w | Directory _ w => w end.

Definition data (f : file) : text :=
  match f with File _ _ d => d | Binary _ _ | Directory _ _ => [] end.

Inductive open_mode : Type := ModeR | ModeW.

(** What a run does to its surroundings, in the order it does it:
    [EvWrite] is a write that went through, [EvCut] one that the device
    cut short, with the text that reached the file. *)
Inductive event : Type :=
| EvOpen (path : string) (mode : open_mode)
| EvWrite (path : string) (s : text)
| EvCut (path : string) (s : text)
| EvPrint (s : text).

(** The codecs of standard output that are modelled, and the code points
    each can encode. *)
Inductive encoding : Type := UTF8 | Latin1 | ASCII.

Definition encodes (enc : encoding) (c : codepoint) : bool :=
  match enc with
  | ASCII => (c <? 128)%N
  | Latin1 => (c <? 256)%N
  | UTF8 => ((c <? 55296) || ((57343 <? c) && (c <? 1114112)))%N
  end.

(** The device under the file system: it works, or it gives up during
    every write after [kept] characters have reached the file. *)
Inductive device : Type :=
| Works
| Fails (kept : nat).

(** [default_encoding] is the codec the interpreter gives standard output
    when the variable [PYTHONIOENCODING] does not name one of the codecs
    modelled: the one it derives from the rest of the environment. *)
Record world : Type := World {
  argv : list string;
  environ : gmap string string;
  default_encoding : encoding;
  disk : device;
  fs : gmap string file;
  trace : list event
}.

Definition log (e : event) (w : world) : world :=
  World (argv w) (environ w) (default_encoding w) (disk w) (fs w)
        (trace w ++ [e]).

Definition set_fs (m : gmap string file) (w : world) : world :=
  World (argv w) (environ w) (default_encoding w) (disk w) m (trace w).

(** The codec of [sys.stdout], which the interpreter fixes from the
    environment before the script starts. *)
Definition stdout_encoding (w : world) : encoding :=
  match environ w !! "PYTHONIOENCODING" with
  | Some name =>
      if String.eqb name "ascii" then ASCII
      else if String.eqb name "latin-1" then Latin1
      else if String.eqb name "utf-8" then UTF8
      else default_encoding w
  | None => default_encoding w
  end.

(** Standard output can encode [s]. *)
Definition can_print (w : world) (s : text) : bool :=
  forallb (encodes (stdout_encoding w)) s.

(** Computations: they read and change the world, and return or raise.
    The world a raising computation leaves behind is kept: nothing is
    rolled back. *)
Definition M (A : Type) : Type := world → result A * world.

Definition ret {A} (a : A) : M A := λ w, (Ok a, w).

Definition raise {A} (e : exn) : M A := λ w, (Raise e, w).

Definition bind {A B} (m : M A) (k : A → M B) : M B :=
  λ w, match m w with
       | (Ok a, w') => k a w'
       | (Raise e, w') => (Raise e, w')
       end.

(** [with open(path, "r", encoding="utf-8") as f: return f.read()].
    [open] fails on a missing path, without permission and on a
    directory; [read] fails on bytes that are not UTF-8. *)
Definition read_file (path : string) : M text :=
  λ w, let w := log (EvOpen path ModeR) w in
       match fs w !! path with
       | None => (Raise FileNotFoundError, w)
       | Some f =>
           if readable f then
             match f with
             | File _ _ d => (Ok d, w)
             | Binary _ _ => (Raise UnicodeDecodeError, w)
             | Directory _ _ => (Raise IsADirectoryError, w)
             end
           else (Raise PermissionError, w)
       end.

(** What [f.write(s)] and the closing of [f] make of a file just opened
    for writing, hence truncated: on a device that works the file holds
    [s]; on one that fails it holds what reached it, and the [OSError] is
    raised. *)
Definition store (path : string) (r : bool) (s : text) : M unit :=
  λ w, match disk w with
       | Works =>
           (Ok (), log (EvWrite path s)
                     (set_fs (<[path := File r true s]> (fs w)) w))
       | Fails kept =>
           (Raise OSError,
            log (EvCut path (take kept s))
              (set_fs (<[path := File r true (take kept s)]> (fs w)) w))
       end.

(** [with open(path, "w", encoding="utf-8") as f: f.write(s)].  [open]
    fails on a directory and without permission; it creates a path that
    does not exist yet. *)
Definition write_file (path : string) (s : text) : M unit :=
  λ w, let w := log (EvOpen path ModeW) w in
       match fs w !! path with
       | None => store path true s w
       | Some (Directory _ _) => (Raise IsADirectoryError, w)
       | Some f =>
           if writable f then store path (readable f) s w
           else (Raise PermissionError, w)
       end.

(** [print(s)]: the text is encoded for standard output first, and
    nothing is printed when that fails. *)
Definition print (s : text) : M unit :=
  λ w, if can_print w s then (Ok (), log (EvPrint s) w)
       else (Raise UnicodeEncodeError, w).

(** [s.index(sub, start)] as a computation. *)
Definition str_index (s sub : text) (start : nat) : M nat :=
  match index s sub start with
  | Some i => ret i
  | None => raise ValueError
  end.

(** Standard output: every [print] writes its argument and a newline. *)
Definition stdout_of (tr : list event) : text :=
  flat_map (λ e, match e with EvPrint s => s ++ [newline] | _ => [] end) tr.

End Py.

Import Py.

(** The script is written with stdpp's monad notation: [x ← m; k] and
    [m;; k] stand for [bind]. *)
#[global] Instance M_ret : MRet M := @ret.
#[global] Instance M_bind : MBind M := λ A B k m, bind m k.

(** ** The script *)

Definition main : M unit :=
  content ← read_file filepath;
  start_idx ← str_index content old_start 0;
  end_search_start ← str_index content old_end_marker start_idx;
  closing ← str_index content closing_lit end_search_start;
  let end_idx := closing + length closing_lit in
  let old_section := slice content start_idx end_idx in
  print (lit "=== OLD SECTION ===");;
  print old_section;;
  print (lit "=== END OLD ===");;
  let content := slice_to content start_idx ++ new_section
                 ++ slice_from content end_idx in
  write_file filepath content;;
  print (lit "Done! Feeds updated successfully.").

(** ** What the locator is specified against *)

(** [sub] occurs in [s] at position [p]: [s[p:p+len(sub)] == sub]. *)
Definition occurs_at (sub s : text) (p : nat) : Prop :=
  p ≤ length s ∧ slice s p (p + length sub) = sub.

(** [p] is the first position at or after [start] where [sub] occurs. *)
Definition first_from (sub s : text) (start p : nat) : Prop :=
  start ≤ p ∧ occurs_at sub s p ∧ ∀ q, start ≤ q < p → ¬ occurs_at sub s q.

(** The three anchors occur in [s] in the order the locator needs. *)
Definition anchors_in_order (s : text) : Prop :=
  ∃ i j k, occurs_at old_start s i
         ∧ i ≤ j ∧ occurs_at old_end_marker s j
         ∧ j ≤ k ∧ occurs_at closing_lit s k.

(** The run's outcome and the world it leaves. *)
Definition outcome (w : world) : result unit := (main w).1.
Definition after (w : world) : world := (main w).2.

(** One of the anchors is missing where the locator looks for it. *)
Definition anchor_missing (s : text) : Prop :=
  (∀ p, ¬ occurs_at old_start s p)
  ∨ (∃ i, first_from old_start s 0 i
        ∧ ∀ q, i ≤ q → ¬ occurs_at old_end_marker s q)
  ∨ (∃ i j, first_from old_start s 0 i
          ∧ first_from old_end_marker s i j
          ∧ ∀ q, j ≤ q → ¬ occurs_at closing_lit s q).

(** The three lookups of the script, chained: the bounds
    [(start_idx, end_idx)] of the region, if all three succeed. *)
Definition locate (content : text) : option (nat * nat) :=
  match index content old_start 0 with
  | None => None
  | Some start_idx =>
      match index content old_end_marker start_idx with
      | None => None
      | Some end_search_start =>
          match index content closing_lit end_search_start with
          | None => None
          | Some closing => Some (start_idx, closing + length closing_lit)
          end
      end
  end.

(** The text a run computes from [content] and the region's bounds. *)
Definition spliced (content : text) (start_idx end_idx : nat) : text :=
  take start_idx content ++ new_section ++ drop end_idx content.

(** The events of a run that gets as far as printing the old section. *)
Definition printed (content : text) (start_idx end_idx : nat) : list event :=
  [ EvOpen filepath ModeR;
    EvPrint (lit "=== OLD SECTION ===");
    EvPrint (slice content start_idx end_idx);
    EvPrint (lit "=== END OLD ===");
    EvOpen filepath ModeW ].

(** The events of a run that completes. *)
Definition completed (content : text) (start_idx end_idx : nat) : list event :=
  printed content start_idx end_idx ++
  [ EvWrite filepath (spliced content start_idx end_idx);
    EvPrint (lit "Done! Feeds updated successfully.") ].

Definition extend (evs : list event) (w : world) : world :=
  World (argv w) (environ w) (default_encoding w) (disk w) (fs w)
        (trace w ++ evs).

(** The ways a run can go, read off the script: the [open]s, the [read],
    each lookup, the [print] of the old section and the write are exits. *)
Inductive run_case (w : world) : result unit → world → Prop :=
| RunMissing :
    fs w !! filepath = None →
    run_case w (Raise FileNotFoundError) (extend [EvOpen filepath ModeR] w)
| RunUnreadable f :
    fs w !! filepath = Some f → readable f = false →
    run_case w (Raise PermissionError) (extend [EvOpen filepath ModeR] w)
| RunDirectory wr :
    fs w !! filepath = Some (Directory true wr) →
    run_case w (Raise IsADirectoryError) (extend [EvOpen filepath ModeR] w)
| RunUndecodable wr :
    fs w !! filepath = Some (Binary true wr) →
    run_case w (Raise UnicodeDecodeError) (extend [EvOpen filepath ModeR] w)
| RunNotFound wr content :
    fs w !! filepath = Some (File true wr content) →
    locate content = None →
    run_case w (Raise ValueError) (extend [EvOpen filepath ModeR] w)
| RunUnprintable wr content i e :
    fs w !! filepath = Some (File true wr content) →
    locate content = Some (i, e) →
    can_print w (slice content i e) = false →
    run_case w (Raise UnicodeEncodeError)
      (extend [EvOpen filepath ModeR; EvPrint (lit "=== OLD SECTION ===")] w)
| RunReadOnly content i e :
    fs w !! filepath = Some (File true false content) →
    locate content = Some (i, e) →
    can_print w (slice content i e) = true →
    run_case w (Raise PermissionError) (extend (printed content i e) w)
| RunCut content i e kept :
    fs w !! filepath = Some (File true true content) →
    locate content = Some (i, e) →
    can_print w (slice content i e) = true →
    disk w = Fails kept →
    run_case w (Raise OSError)
      (set_fs (<[filepath := File true true (take kept (spliced content i e))]>
                 (fs w))
              (extend (printed content i e
                       ++ [EvCut filepath (take kept (spliced content i e))])
                      w))
| RunDone content i e :
    fs w !! filepath = Some (File true true content) →
    locate content = Some (i, e) →
    can_print w (slice content i e) = true →
    disk w = Works →
    run_case w (Ok ())
      (set_fs (<[filepath := File true true (spliced content i e)]> (fs w))
              (extend (completed content i e) w)).

(** ** Sample worlds *)

(** A world whose only file is the target. *)
Definition world_with (f : file) : world :=
  World [] ∅ UTF8 Works {[ filepath := f ]} [].

(** A small feed list with the three anchors in order. *)
Definition sample : text :=
     ln "export const FEEDS = ["
  ++ ln "  { name: `Hacker News`, url: `https://news.ycombinator.com/rss` },"
  ++ ln "  // Human Side of Tech & Leadership"
  ++ ln "  {"
  ++ ln "    name: `Lil'Log (Lilian Weng)`,"
  ++ ln "    url: `https://lilianweng.github.io/index.xml`,"
  ++ ln "  },"
  ++ ln "  { name: `Last`, url: `https://example.org/feed` },"
  ++ ln "];".

Definition sample_world : world := world_with (File true true sample).

(** The same list without the comment that serves as start marker. *)
Definition unmarked : text :=
     ln "export const FEEDS = ["
  ++ ln "  {"
  ++ ln "    name: `Lil'Log (Lilian Weng)`,"
  ++ ln "    url: `https://lilianweng.github.io/index.xml`,"
  ++ ln "  },"
  ++ ln "];".

(** The source text of the specification's end-to-end scenario: the start
    marker is there, the end marker is not. *)
Definition scenario : text :=
     ln "A"
  ++ ln "  // Human Side of Tech & Leadership"
  ++ ln "  { name: X, url: `...` },"
  ++ ln "  { other },".

Definition unmarked_world : world := world_with (File true true unmarked).

Definition scenario_world : world := world_with (File true true scenario).

(** Worlds in which the file traffic fails: no target file, and a target
    file that may be read but not written. *)
Definition empty_world : world := World [] ∅ UTF8 Works ∅ [].

Definition read_only_world : world := world_with (File true false sample).

(** Two worlds with the same target file and nothing else in common. *)
Definition quiet_world : world :=
  World ["_update_feeds.py"] ∅ UTF8 Works
        {[ filepath := File true true sample ]} [].

Definition noisy_world : world :=
  World ["_update_feeds.py"; "--dry-run"; "other.ts"]
        {[ "FEEDS_FILE" := "other.ts" ]} UTF8 Works
        {[ filepath := File true true sample;
           "other.ts" := File true true unmarked ]}
        [EvPrint (lit "earlier output")].

(** ** Failing file traffic *)

(** The old section a run on [content] has to print. *)
Definition old_section_of (content : text) : text :=
  match locate content with
  | Some (i, e) => slice content i e
  | None => []
  end.

(** [open(filepath, "r")] fails: there is no such file, or it may not be
    read. *)
Definition read_fails (w : world) : Prop :=
  fs w !! filepath = None
  ∨ ∃ f, fs w !! filepath = Some f ∧ readable f = false.

(** The path may be read, and names a directory or bytes that are not
    UTF-8. *)
Definition read_rejected (w : world) : Prop :=
  ∃ wr, fs w !! filepath = Some (Directory true wr)
      ∨ fs w !! filepath = Some (Binary true wr).

(** The run gets as far as [open(filepath, "w")], which fails: the text
    has the anchors, the old section can be printed, and the file may not
    be written. *)
Definition write_fails (w : world) : Prop :=
  ∃ content, fs w !! filepath = Some (File true false content)
           ∧ is_Some (locate content)
           ∧ can_print w (old_section_of content) = true.

(** The run gets as far as the write, and the device cuts it short after
    [kept] characters. *)
Definition write_cut (w : world) (kept : nat) : Prop :=
  ∃ content, fs w !! filepath = Some (File true true content)
           ∧ is_Some (locate content)
           ∧ can_print w (old_section_of content) = true
           ∧ disk w = Fails kept.

(** The run gets as far as [print(old_section)], which standard output
    cannot encode. *)
Definition print_fails (w : world) : Prop :=
  ∃ wr content, fs w !! filepath = Some (File true wr content)
              ∧ is_Some (locate content)
              ∧ can_print w (old_section_of content) = false.

(** A feed list whose region holds a letter outside ASCII, and worlds
    around it: one with the default standard output, one whose
    environment asks for ASCII, one with the file read-only as well. *)
Definition accented : text :=
     ln "export const FEEDS = ["
  ++ ln "  // Human Side of Tech & Leadership"
  ++ ln "  {"
  ++ lit "    name: `Zo" ++ [235%N] ++ ln "`,"
  ++ ln "    url: `https://lilianweng.github.io/index.xml`,"
  ++ ln "  },"
  ++ ln "];".

Definition accented_world : world := world_with (File true true accented).

Definition ascii_world : world :=
  World [] {[ "PYTHONIOENCODING" := "ascii" ]} UTF8 Works
        {[ filepath := File true true accented ]} [].

Definition ascii_read_only_world : world :=
  World [] {[ "PYTHONIOENCODING" := "ascii" ]} UTF8 Works
        {[ filepath := File true false accented ]} [].

(** Worlds where the path names a directory, or bytes that are not
    UTF-8, and one whose device gives up after 100 characters. *)
Definition directory_world : world := world_with (Directory true true).

Definition binary_world : world := world_with (Binary true true).

Definition failing_disk_world : world :=
  World [] ∅ UTF8 (Fails 100) {[ filepath := File true true sample ]} [].

(** ** Overlapping occurrences *)

(** Two texts agree as far as both go. *)
Fixpoint agree (x y : text) : bool :=
  match x, y with
  | a :: x', b :: y' => N.eqb a b && agree x' y'
  | _, _ => true
  end.

(** [b] can start [d] characters into an occurrence of [a]. *)
Definition can_overlap (a b : text) (d : nat) : bool := agree (drop d a) b.

(** No offset in [lo, hi) lets [b] start inside an occurrence of [a]. *)
Definition never_overlap (a b : text) (lo hi : nat) : bool :=
  forallb (λ d, negb (can_overlap a b d)) (seq lo (hi - lo)).

(** ** Running again *)

(** The parts of the replacement block before its start marker and after
    the closing delimiter that follows its end marker. *)
Definition block_head : text := take 123 new_section.
Definition block_tail : text := drop 1995 new_section.

(** The world after [n] runs in a row. *)
Definition runs (n : nat) (w : world) : world := Nat.iter n after w.

(** The length of the target file's text. *)
Definition target_length (w : world) : option nat :=
  (length ∘ data) <$> fs w !! filepath.

(** The start marker occurs nowhere in [s]. *)
Definition unmarked_text (s : text) : Prop :=
  ∀ q, ¬ occurs_at old_start s q.

(** A text a further run works on as on the output of a run: a copy of the
    replacement block, with no start marker before it. *)
Definition rerunnable (s : text) : Prop :=
  ∃ before rest, s = before ++ new_section ++ rest ∧ unmarked_text before.

(** The target file is readable and writable and its text invites a
    further run. *)
Definition ready (w : world) : Prop :=
  ∃ s, fs w !! filepath = Some (File true true s) ∧ rerunnable s
     ∧ disk w = Works.

(** A file that agrees with [sample] up to the end of its region and goes
    on differently. *)
Definition other_tail : text :=
  take 222 sample ++ ln "" ++ ln "  // nothing the locator looks for" ++ ln "];".

Definition other_tail_world : world := world_with (File true true other_tail).

(** * Properties *)

(** ** Substring search *)

Section Search.

Implicit Types sub s pre suf : text.
Implicit Types p q start : nat.

(** An occurrence splits the text around it. *)
Lemma occurs_at_split sub s p :
  occurs_at sub s p ↔ ∃ pre suf, s = pre ++ sub ++ suf ∧ length pre = p.
Proof.
  unfold occurs_at, slice. split.
  - intros [Hp Hs]. exists (take p s), (drop (p + length sub) s).
    split; [|rewrite length_take; lia].
    rewrite <- (take_drop (p + length sub) s) at 1.
    rewrite <- (take_drop p (take (p + length sub) s)).
    rewrite take_take, Hs, Nat.min_l by lia.
    by rewrite <- app_assoc.
  - intros (pre & suf & -> & <-). split; [rewrite length_app; lia|].
    rewrite app_assoc.
    rewrite (take_app_length' (pre ++ sub)) by (rewrite length_app; lia).
    apply drop_app_length.
Qed.

Lemma startswith_app sub suf : startswith sub (sub ++ suf) = true.
Proof.
  induction sub as [|a sub IH]; simpl; [done|].
  by rewrite N.eqb_refl, IH.
Qed.

Lemma startswith_inv sub s :
  startswith sub s = true → ∃ suf, s = sub ++ suf.
Proof.
  revert s. induction sub as [|a sub IH]; intros s H.
  - by exists s.
  - destruct s as [|b s]; simpl in H; [done|].
    apply andb_prop in H as [Hab Hs].
    apply N.eqb_eq in Hab as ->.
    destruct (IH _ Hs) as [suf ->]. by exists suf.
Qed.

Lemma occurs_at_0 sub s : occurs_at sub s 0 ↔ startswith sub s = true.
Proof.
  rewrite occurs_at_split. split.
  - intros (pre & suf & -> & Hlen).
    apply nil_length_inv in Hlen as ->. simpl. apply startswith_app.
  - intros H. destruct (startswith_inv _ _ H) as [suf ->].
    by exists [], suf.
Qed.

Lemma occurs_at_S sub a s p :
  occurs_at sub (a :: s) (S p) ↔ occurs_at sub s p.
Proof.
  rewrite !occurs_at_split. split.
  - intros (pre & suf & Heq & Hlen).
    destruct pre as [|b pre]; simpl in *; [done|].
    injection Heq as -> ->. exists pre, suf. split; [done|lia].
  - intros (pre & suf & -> & Hlen).
    exists (a :: pre), suf. split; [done|simpl; lia].
Qed.

Lemma occurs_at_bound sub s p :
  occurs_at sub s p → p + length sub ≤ length s.
Proof.
  intros (pre & suf & -> & <-)%occurs_at_split. rewrite !length_app. lia.
Qed.

Lemma occurs_at_nil_inv sub p : occurs_at sub [] p → p = 0.
Proof. intros H. apply occurs_at_bound in H. simpl in H. lia. Qed.

(** [find] returns an occurrence, and the lowest one. *)
Lemma find_Some sub s p :
  find sub s = Some p →
  occurs_at sub s p ∧ ∀ q, q < p → ¬ occurs_at sub s q.
Proof.
  revert p. induction s as [|a s IH]; intros p; simpl.
  - destruct (startswith sub []) eqn:E; [|done].
    intros [= <-]. split; [by apply occurs_at_0|lia].
  - destruct (startswith sub (a :: s)) eqn:E.
    + intros [= <-]. split; [by apply occurs_at_0|lia].
    + destruct (find sub s) as [p'|]; simpl; [|done].
      intros [= <-]. destruct (IH p' eq_refl) as [Hocc Hmin].
      split; [by apply occurs_at_S|].
      intros [|q] Hq.
      * rewrite occurs_at_0. congruence.
      * rewrite occurs_at_S. apply Hmin. lia.
Qed.

(** [find] fails only when there is no occurrence at all. *)
Lemma find_None sub s :
  find sub s = None → ∀ q, ¬ occurs_at sub s q.
Proof.
  induction s as [|a s IH]; simpl.
  - destruct (startswith sub []) eqn:E; [done|].
    intros _ q Hq. pose proof (occurs_at_nil_inv _ _ Hq) as ->.
    apply occurs_at_0 in Hq. congruence.
  - destruct (startswith sub (a :: s)) eqn:E; [done|].
    destruct (find sub s) as [p'|]; simpl; [done|].
    intros _ [|q].
    + rewrite occurs_at_0. congruence.
    + rewrite occurs_at_S. by apply IH.
Qed.

Lemma occurs_at_drop sub s start q :
  start ≤ length s →
  occurs_at sub (drop start s) q ↔ occurs_at sub s (start + q).
Proof.
  intros Hstart. rewrite !occurs_at_split. split.
  - intros (pre & suf & Heq & <-).
    exists (take start s ++ pre), suf. split.
    + by rewrite <- app_assoc, <- Heq, take_drop.
    + rewrite length_app, length_take. lia.
  - intros (pre & suf & -> & Hlen).
    exists (drop start pre), suf. split.
    + apply drop_app_le. lia.
    + rewrite length_drop. lia.
Qed.

(** [index] returns exactly the first occurrence at or after [start]. *)
Lemma index_Some sub s start p :
  index s sub start = Some p → first_from sub s start p.
Proof.
  unfold index. destruct (decide (start ≤ length s)) as [Hstart|]; [|done].
  destruct (find sub (drop start s)) as [i|] eqn:E; simpl; [|done].
  intros [= <-]. destruct (find_Some _ _ _ E) as [Hocc Hmin].
  split; [lia|]. split.
  - by apply occurs_at_drop.
  - intros q [Hq1 Hq2] Hq.
    apply (Hmin (q - start)); [lia|].
    apply occurs_at_drop; [done|].
    by replace (start + (q - start)) with q by lia.
Qed.

(** [index] raises only when [sub] does not occur at or after [start]. *)
Lemma index_None sub s start :
  index s sub start = None → ∀ q, start ≤ q → ¬ occurs_at sub s q.
Proof.
  unfold index. destruct (decide (start ≤ length s)) as [Hstart|Hstart].
  - destruct (find sub (drop start s)) as [i|] eqn:E; simpl; [done|].
    intros _ q Hq Hocc.
    apply (find_None _ _ E (q - start)).
    apply occurs_at_drop; [done|].
    by replace (start + (q - start)) with q by lia.
  - intros _ q Hq Hocc. apply occurs_at_bound in Hocc. lia.
Qed.

Lemma first_from_unique sub s start p p' :
  first_from sub s start p → first_from sub s start p' → p = p'.
Proof.
  intros (H1 & H2 & H3) (H1' & H2' & H3').
  destruct (Nat.lt_trichotomy p p') as [Hlt|[->|Hlt]]; [|done|].
  - destruct (H3' p); [lia|done].
  - destruct (H3 p'); [lia|done].
Qed.

Lemma index_first_from sub s start p :
  index s sub start = Some p ↔ first_from sub s start p.
Proof.
  split; [apply index_Some|].
  intros Hp. destruct (index s sub start) as [p'|] eqn:E.
  - f_equal. apply index_Some in E. eapply first_from_unique; eauto.
  - destruct Hp as (H1 & H2 & _). by destruct (index_None _ _ _ E p).
Qed.

(** An occurrence at or after [start] makes [index] succeed at or
    before it. *)
Lemma index_finds sub s start q :
  start ≤ q → occurs_at sub s q →
  ∃ p, index s sub start = Some p ∧ start ≤ p ≤ q.
Proof.
  intros Hq Hocc. destruct (index s sub start) as [p|] eqn:E.
  - exists p. split; [done|].
    apply index_Some in E as (H1 & H2 & H3).
    split; [done|]. destruct (decide (p ≤ q)) as [|Hn]; [done|].
    destruct (H3 q); [lia|done].
  - by destruct (index_None _ _ _ E q).
Qed.

End Search.

(** ** The located region *)

Section Region.

Implicit Types content : text.

Lemma length_closing_lit : length closing_lit = 2.
Proof. reflexivity. Qed.

(** The bounds are those of the three first occurrences, chained. *)
Lemma locate_Some content i e :
  locate content = Some (i, e) ↔
  ∃ j k, first_from old_start content 0 i
       ∧ first_from old_end_marker content i j
       ∧ first_from closing_lit content j k
       ∧ e = k + 2.
Proof.
  unfold locate. split.
  - destruct (index content old_start 0) as [i'|] eqn:Hi; [|done].
    destruct (index content old_end_marker i') as [j|] eqn:Hj; [|done].
    destruct (index content closing_lit j) as [k|] eqn:Hk; [|done].
    intros [= <- <-]. exists j, k.
    split; [by apply index_first_from|].
    split; [by apply index_first_from|].
    split; [by apply index_first_from|done].
  - intros (j & k & Hi & Hj & Hk & ->).
    apply index_first_from in Hi, Hj, Hk.
    by rewrite Hi, Hj, Hk.
Qed.

(** The lookups succeed exactly when the anchors occur in order. *)
Lemma locate_anchors content :
  anchors_in_order content ↔ ∃ i e, locate content = Some (i, e).
Proof.
  split.
  - intros (i & j & k & Hi & Hij & Hj & Hjk & Hk).
    destruct (index_finds old_start content 0 i) as (i' & Ei & Hi');
      [lia|done|].
    destruct (index_finds old_end_marker content i' j) as (j' & Ej & Hj');
      [lia|done|].
    destruct (index_finds closing_lit content j' k) as (k' & Ek & Hk');
      [lia|done|].
    exists i', (k' + length closing_lit).
    unfold locate. by rewrite Ei, Ej, Ek.
  - intros (i & e & (j & k & Hi & Hj & Hk & _)%locate_Some).
    destruct Hi as (_ & Hi & _), Hj as (Hij & Hj & _), Hk as (Hjk & Hk & _).
    by exists i, j, k.
Qed.

Lemma locate_None content :
  locate content = None ↔ ¬ anchors_in_order content.
Proof.
  rewrite locate_anchors. split.
  - intros H (i & e & H'). congruence.
  - intros H. destruct (locate content) as [[i e]|]; [|done].
    destruct H. by exists i, e.
Qed.

(** The region lies inside the text and is not empty. *)
Lemma locate_bounds content i e :
  locate content = Some (i, e) → i < e ≤ length content.
Proof.
  intros (j & k & Hi & Hj & Hk & ->)%locate_Some.
  destruct Hj as (Hij & _), Hk as (Hjk & Hk%occurs_at_bound & _).
  rewrite length_closing_lit in Hk. lia.
Qed.

Lemma length_slice content i e :
  i ≤ e ≤ length content → length (slice content i e) = e - i.
Proof.
  intros H. unfold slice. rewrite length_drop, length_take. lia.
Qed.

(** The text is the part before the region, the region, and the part
    after it. *)
Lemma slice_split content i e :
  i ≤ e →
  content = take i content ++ slice content i e ++ drop e content.
Proof.
  intros H. unfold slice.
  rewrite <- (take_drop e content) at 1.
  rewrite <- (take_drop i (take e content)) at 1.
  rewrite take_take, Nat.min_l by lia.
  by rewrite <- app_assoc.
Qed.

(** The region ends with the closing delimiter. *)
Lemma locate_ends content i e :
  locate content = Some (i, e) →
  slice content i e = slice content i (e - 2) ++ closing_lit.
Proof.
  intros (j & k & Hi & Hj & Hk & ->)%locate_Some.
  destruct Hj as (Hij & _), Hk as (Hjk & [Hk1 Hk2] & _).
  rewrite length_closing_lit in Hk2.
  replace (k + 2 - 2) with k by lia.
  rewrite <- Hk2. unfold slice.
  rewrite <- (take_drop k (take (k + 2) content)) at 1.
  rewrite take_take, Nat.min_l by lia.
  apply drop_app_le. rewrite length_take. lia.
Qed.

(** The region begins where the start marker begins: when it is long
    enough, its first characters are the start marker. *)
Lemma locate_begins content i e :
  locate content = Some (i, e) → length old_start ≤ e - i →
  take (length old_start) (slice content i e) = old_start.
Proof.
  intros Hloc Hlen.
  pose proof (locate_bounds _ _ _ Hloc) as Hb.
  apply locate_Some in Hloc as (j & k & (_ & [_ Hi] & _) & _).
  rewrite <- Hi at 2. unfold slice.
  rewrite !skipn_firstn_comm, take_take.
  f_equal. lia.
Qed.

(** The replacement block does not begin with the start marker. *)
Lemma new_section_begins :
  take (length old_start) new_section ≠ old_start.
Proof. vm_compute. discriminate. Qed.

(** Splicing changes the text: the region begins with the start marker,
    the replacement block with another comment. *)
Lemma spliced_changes content i e :
  locate content = Some (i, e) → spliced content i e ≠ content.
Proof.
  intros Hloc Heq.
  pose proof (locate_bounds _ _ _ Hloc) as Hb.
  unfold spliced in Heq.
  rewrite (slice_split content i e) in Heq at 3 by lia.
  apply app_inv_head, app_inv_tail in Heq.
  assert (Hlen : e - i = length new_section)
    by (rewrite Heq; symmetry; apply length_slice; lia).
  apply new_section_begins. rewrite Heq.
  apply (locate_begins _ _ _ Hloc).
  rewrite Hlen. vm_compute. lia.
Qed.

End Region.

(** ** The run, case by case *)

Section Run.

Lemma bind_ok {A B} (m : M A) (k : A → M B) w a w' :
  m w = (Ok a, w') → (m ≫= k) w = k a w'.
Proof. intros H. unfold mbind, M_bind, bind. by rewrite H. Qed.

Lemma bind_raise {A B} (m : M A) (k : A → M B) w e w' :
  m w = (Raise e, w') → (m ≫= k) w = (Raise e, w').
Proof. intros H. unfold mbind, M_bind, bind. by rewrite H. Qed.

Lemma str_index_ok s sub start i w :
  index s sub start = Some i → str_index s sub start w = (Ok i, w).
Proof. intros H. unfold str_index. by rewrite H. Qed.

Lemma str_index_raise s sub start w :
  index s sub start = None → str_index s sub start w = (Raise ValueError, w).
Proof. intros H. unfold str_index. by rewrite H. Qed.

Lemma extend_extend evs evs' w :
  extend evs' (extend evs w) = extend (evs ++ evs') w.
Proof. unfold extend; simpl. by rewrite <- app_assoc. Qed.

Lemma log_extend e w : log e w = extend [e] w.
Proof. done. Qed.

Lemma encodes_ascii enc c : (c <? 128)%N = true → encodes enc c = true.
Proof.
  intros H%N.ltb_lt. destruct enc; simpl.
  - apply orb_true_iff. left. apply N.ltb_lt. lia.
  - apply N.ltb_lt. lia.
  - apply N.ltb_lt. lia.
Qed.

(** Every codec modelled can encode ASCII text. *)
Lemma can_print_ascii w s :
  forallb (λ c, (c <? 128)%N) s = true → can_print w s = true.
Proof.
  unfold can_print. rewrite !forallb_forall.
  intros H c Hc. by apply encodes_ascii, H.
Qed.

Lemma can_print_extend evs w s : can_print (extend evs w) s = can_print w s.
Proof. done. Qed.

Lemma can_print_set_fs m w s : can_print (set_fs m w) s = can_print w s.
Proof. done. Qed.

Lemma print_ok s w :
  can_print w s = true → print s w = (Ok (), extend [EvPrint s] w).
Proof. intros H. unfold print. by rewrite H. Qed.

Lemma print_raise s w :
  can_print w s = false → print s w = (Raise UnicodeEncodeError, w).
Proof. intros H. unfold print. by rewrite H. Qed.

Lemma read_file_extend w :
  read_file filepath w
  = match fs w !! filepath with
    | None => (Raise FileNotFoundError, extend [EvOpen filepath ModeR] w)
    | Some f =>
        if readable f then
          match f with
          | File _ _ d => (Ok d, extend [EvOpen filepath ModeR] w)
          | Binary _ _ =>
              (Raise UnicodeDecodeError, extend [EvOpen filepath ModeR] w)
          | Directory _ _ =>
              (Raise IsADirectoryError, extend [EvOpen filepath ModeR] w)
          end
        else (Raise PermissionError, extend [EvOpen filepath ModeR] w)
    end.
Proof. done. Qed.

Lemma write_file_extend s evs w wr content :
  fs w !! filepath = Some (File true wr content) →
  write_file filepath s (extend evs w)
  = if wr then
      match disk w with
      | Works =>
          (Ok (),
           set_fs (<[filepath := File true true s]> (fs w))
                  (extend (evs ++ [EvOpen filepath ModeW; EvWrite filepath s]) w))
      | Fails kept =>
          (Raise OSError,
           set_fs (<[filepath := File true true (take kept s)]> (fs w))
                  (extend (evs ++ [EvOpen filepath ModeW;
                                   EvCut filepath (take kept s)]) w))
      end
    else (Raise PermissionError, extend (evs ++ [EvOpen filepath ModeW]) w).
Proof.
  intros Hf. unfold write_file. cbn [fs extend log]. rewrite Hf.
  destruct wr; cbn [writable readable].
  - unfold store, log, set_fs, extend.
    cbn [disk fs argv environ default_encoding trace].
    destruct (disk w); by rewrite <- !app_assoc.
  - unfold log, extend. cbn [disk fs argv environ default_encoding trace].
    by rewrite <- !app_assoc.
Qed.

(** Every run is one of the nine cases. *)
Lemma main_cases w : run_case w (main w).1 (main w).2.
Proof.
  unfold main.
  destruct (fs w !! filepath) as [f|] eqn:Hf.
  2:{ erewrite bind_raise by (rewrite read_file_extend, Hf; reflexivity).
      by apply RunMissing. }
  destruct (readable f) eqn:Hr.
  2:{ erewrite bind_raise by (rewrite read_file_extend, Hf, Hr; reflexivity).
      by eapply RunUnreadable. }
  destruct f as [r wr content|r wr|r wr]; cbn [readable] in Hr; subst r.
  2:{ erewrite bind_raise by (rewrite read_file_extend, Hf; reflexivity).
      by eapply RunUndecodable. }
  2:{ erewrite bind_raise by (rewrite read_file_extend, Hf; reflexivity).
      by eapply RunDirectory. }
  erewrite bind_ok by (rewrite read_file_extend, Hf; reflexivity).
  destruct (index content old_start 0) as [i|] eqn:Hi.
  2:{ erewrite bind_raise by (by apply str_index_raise).
      eapply RunNotFound; eauto. unfold locate. by rewrite Hi. }
  erewrite bind_ok by (by apply str_index_ok).
  destruct (index content old_end_marker i) as [j|] eqn:Hj.
  2:{ erewrite bind_raise by (by apply str_index_raise).
      eapply RunNotFound; eauto. unfold locate. by rewrite Hi, Hj. }
  erewrite bind_ok by (by apply str_index_ok).
  destruct (index content closing_lit j) as [k|] eqn:Hk.
  2:{ erewrite bind_raise by (by apply str_index_raise).
      eapply RunNotFound; eauto. unfold locate. by rewrite Hi, Hj, Hk. }
  erewrite bind_ok by (by apply str_index_ok).
  assert (Hloc : locate content = Some (i, k + length closing_lit))
    by (unfold locate; by rewrite Hi, Hj, Hk).
  cbv zeta. set (e := k + length closing_lit) in *.
  erewrite bind_ok
    by (apply print_ok, can_print_ascii; vm_compute; reflexivity).
  rewrite extend_extend.
  destruct (can_print w (slice content i e)) eqn:Hp.
  2:{ erewrite bind_raise by (by apply print_raise).
      by eapply RunUnprintable. }
  erewrite bind_ok by (by apply print_ok).
  rewrite extend_extend.
  erewrite bind_ok
    by (apply print_ok, can_print_ascii; vm_compute; reflexivity).
  rewrite extend_extend.
  destruct wr.
  2:{ erewrite bind_raise
        by (rewrite (write_file_extend _ _ w _ _ Hf); reflexivity).
      by eapply RunReadOnly. }
  destruct (disk w) as [|kept] eqn:Hd.
  2:{ erewrite bind_raise
        by (rewrite (write_file_extend _ _ w _ _ Hf), Hd; reflexivity).
      by eapply RunCut. }
  erewrite bind_ok
    by (rewrite (write_file_extend _ _ w _ _ Hf), Hd; reflexivity).
  rewrite print_ok by (apply can_print_ascii; vm_compute; reflexivity).
  cbn [fst snd].
  replace (extend _ (set_fs _ _)) with
    (set_fs (<[filepath := File true true (spliced content i e)]> (fs w))
            (extend (completed content i e) w)).
  - by eapply RunDone.
  - unfold set_fs, extend, completed, printed.
    cbn [argv environ default_encoding disk fs trace].
    f_equal. by rewrite <- !app_assoc.
Qed.

(** The cases as equations, for use on a world whose target file is
    known. *)
Lemma main_missing w :
  fs w !! filepath = None →
  main w = (Raise FileNotFoundError, extend [EvOpen filepath ModeR] w).
Proof.
  intros Hf. pose proof (main_cases w) as H.
  destruct (main w) as [r w']; simpl in H.
  inversion H; simplify_eq; first [done|congruence].
Qed.

Lemma main_unreadable w f :
  fs w !! filepath = Some f → readable f = false →
  main w = (Raise PermissionError, extend [EvOpen filepath ModeR] w).
Proof.
  intros Hf Hr. pose proof (main_cases w) as H.
  destruct (main w) as [r w']; simpl in H.
  inversion H; simplify_eq; first [done|congruence].
Qed.

Lemma main_directory w wr :
  fs w !! filepath = Some (Directory true wr) →
  main w = (Raise IsADirectoryError, extend [EvOpen filepath ModeR] w).
Proof.
  intros Hf. pose proof (main_cases w) as H.
  destruct (main w) as [r w']; simpl in H.
  inversion H; simplify_eq; first [done|congruence].
Qed.

Lemma main_undecodable w wr :
  fs w !! filepath = Some (Binary true wr) →
  main w = (Raise UnicodeDecodeError, extend [EvOpen filepath ModeR] w).
Proof.
  intros Hf. pose proof (main_cases w) as H.
  destruct (main w) as [r w']; simpl in H.
  inversion H; simplify_eq; first [done|congruence].
Qed.

Lemma main_not_found w wr content :
  fs w !! filepath = Some (File true wr content) →
  locate content = None →
  main w = (Raise ValueError, extend [EvOpen filepath ModeR] w).
Proof.
  intros Hf Hloc. pose proof (main_cases w) as H.
  destruct (main w) as [r w']; simpl in H.
  inversion H; simplify_eq; first [done|congruence].
Qed.

Lemma main_unprintable w wr content i e :
  fs w !! filepath = Some (File true wr content) →
  locate content = Some (i, e) →
  can_print w (slice content i e) = false →
  main w =
    (Raise UnicodeEncodeError,
     extend [EvOpen filepath ModeR; EvPrint (lit "=== OLD SECTION ===")] w).
Proof.
  intros Hf Hloc Hp. pose proof (main_cases w) as H.
  destruct (main w) as [r w']; simpl in H.
  inversion H; simplify_eq; first [done|congruence].
Qed.

Lemma main_read_only w content i e :
  fs w !! filepath = Some (File true false content) →
  locate content = Some (i, e) →
  can_print w (slice content i e) = true →
  main w = (Raise PermissionError, extend (printed content i e) w).
Proof.
  intros Hf Hloc Hp. pose proof (main_cases w) as H.
  destruct (main w) as [r w']; simpl in H.
  inversion H; simplify_eq; first [done|congruence].
Qed.

Lemma main_cut w content i e kept :
  fs w !! filepath = Some (File true true content) →
  locate content = Some (i, e) →
  can_print w (slice content i e) = true →
  disk w = Fails kept →
  main w =
    (Raise OSError,
     set_fs (<[filepath := File true true (take kept (spliced content i e))]>
               (fs w))
            (extend (printed content i e
                     ++ [EvCut filepath (take kept (spliced content i e))])
                    w)).
Proof.
  intros Hf Hloc Hp Hd. pose proof (main_cases w) as H.
  destruct (main w) as [r w']; simpl in H.
  inversion H; simplify_eq; first [done|congruence].
Qed.

Lemma main_done w content i e :
  fs w !! filepath = Some (File true true content) →
  locate content = Some (i, e) →
  can_print w (slice content i e) = true →
  disk w = Works →
  main w =
    (Ok (),
     set_fs (<[filepath := File true true (spliced content i e)]> (fs w))
            (extend (completed content i e) w)).
Proof.
  intros Hf Hloc Hp Hd. pose proof (main_cases w) as H.
  destruct (main w) as [r w']; simpl in H.
  inversion H; simplify_eq; first [done|congruence].
Qed.

(** A run that returns has read a text file, found the region, printed
    it and written the file. *)
Lemma main_Ok_inv w :
  (main w).1 = Ok () →
  ∃ content i e,
    fs w !! filepath = Some (File true true content)
    ∧ locate content = Some (i, e)
    ∧ can_print w (slice content i e) = true
    ∧ disk w = Works
    ∧ main w =
        (Ok (),
         set_fs (<[filepath := File true true (spliced content i e)]> (fs w))
                (extend (completed content i e) w)).
Proof.
  intros Hok. pose proof (main_cases w) as H.
  destruct (main w) as [r w']; simpl in *; subst r.
  inversion H; subst. by exists content, i, e.
Qed.

(** A run leaves arguments, environment and device as they were. *)
Lemma after_frame w :
  argv (main w).2 = argv w ∧ environ (main w).2 = environ w
  ∧ default_encoding (main w).2 = default_encoding w
  ∧ disk (main w).2 = disk w.
Proof.
  pose proof (main_cases w) as H.
  destruct (main w) as [r w']; simpl in *. by inversion H.
Qed.

Lemma can_print_after w s : can_print (main w).2 s = can_print w s.
Proof.
  destruct (after_frame w) as (_ & He & Hd & _).
  unfold can_print, stdout_encoding. by rewrite He, Hd.
Qed.

Lemma old_section_of_locate content i e :
  locate content = Some (i, e) → old_section_of content = slice content i e.
Proof. intros H. unfold old_section_of. by rewrite H. Qed.

End Run.

(** ** The run on text with and without the anchors *)

Section Anchors.

Implicit Types s content : text.

Lemma anchor_missing_locate content :
  anchor_missing content → locate content = None.
Proof.
  unfold locate.
  intros [H0|[(i & Hi & H1)|(i & j & Hi & Hj & H2)]].
  - destruct (index content old_start 0) as [i|] eqn:E; [|done].
    apply index_Some in E as (_ & E & _). by destruct (H0 i).
  - apply index_first_from in Hi. rewrite Hi.
    destruct (index content old_end_marker i) as [j|] eqn:E; [|done].
    apply index_Some in E as (Hij & E & _). by destruct (H1 j).
  - apply index_first_from in Hi, Hj. rewrite Hi, Hj.
    destruct (index content closing_lit j) as [k|] eqn:E; [|done].
    apply index_Some in E as (Hjk & E & _). by destruct (H2 k).
Qed.

(** The lookups fail on exactly the texts that lack an anchor where the
    locator looks for it, which are the texts without the anchors in
    order. *)
Lemma locate_None_missing content :
  locate content = None → anchor_missing content.
Proof.
  unfold locate.
  destruct (index content old_start 0) as [i|] eqn:Hi.
  2:{ intros _. left. intros p. eapply index_None; [done|lia]. }
  destruct (index content old_end_marker i) as [j|] eqn:Hj.
  2:{ intros _. right. left. exists i.
      split; [by apply index_Some|]. by apply index_None. }
  destruct (index content closing_lit j) as [k|] eqn:Hk; [done|].
  intros _. right. right. exists i, j.
  split; [by apply index_Some|]. split; [by apply index_Some|].
  by apply index_None.
Qed.

Lemma anchor_missing_iff content :
  anchor_missing content ↔ ¬ anchors_in_order content.
Proof.
  rewrite <- locate_None. split.
  - apply anchor_missing_locate.
  - apply locate_None_missing.
Qed.

Lemma occurs_at_app sub s a b p :
  occurs_at sub s p → occurs_at sub (a ++ s ++ b) (length a + p).
Proof.
  rewrite !occurs_at_split. intros (pre & suf & -> & <-).
  exists (a ++ pre), (suf ++ b). split.
  - by rewrite <- !app_assoc.
  - by rewrite length_app.
Qed.

Lemma anchors_in_order_app s a b :
  anchors_in_order s → anchors_in_order (a ++ s ++ b).
Proof.
  intros (i & j & k & Hi & Hij & Hj & Hjk & Hk).
  exists (length a + i), (length a + j), (length a + k).
  repeat (split; [first [lia|by apply occurs_at_app]|]).
  by apply occurs_at_app.
Qed.

(** Where the anchors are in the replacement block. *)
Lemma new_section_anchors :
  occurs_at old_start new_section 123
  ∧ occurs_at old_end_marker new_section 1944
  ∧ occurs_at closing_lit new_section 1993.
Proof. repeat split; vm_compute; (reflexivity || lia). Qed.

Lemma spliced_anchors content i e :
  anchors_in_order (spliced content i e).
Proof.
  apply anchors_in_order_app.
  destruct new_section_anchors as (H1 & H2 & H3).
  exists 123, 1944, 1993. repeat (split; [first [lia|done]|]). done.
Qed.

End Anchors.

(** ** Occurrences that overlap *)

Section Overlap.

Implicit Types a b c x y : text.

Lemma agree_app x y r1 r2 : x ++ r1 = y ++ r2 → agree x y = true.
Proof.
  revert y. induction x as [|u x IH]; intros [|v y] H; simpl; try done.
  simpl in H. injection H as -> H. rewrite N.eqb_refl. simpl. by eapply IH.
Qed.

Lemma agree_app_r x y z : agree x y = false → agree x (y ++ z) = false.
Proof.
  revert y. induction x as [|u x IH]; intros [|v y]; simpl; try done.
  destruct (N.eqb u v); simpl; [apply IH|done].
Qed.

Lemma occurs_at_drop_app sub c p :
  occurs_at sub c p ↔ p ≤ length c ∧ ∃ r, drop p c = sub ++ r.
Proof.
  rewrite occurs_at_split. split.
  - intros (pre & suf & -> & <-). split; [rewrite length_app; lia|].
    exists suf. by rewrite drop_app_length.
  - intros (Hp & r & Hr). exists (take p c), r. split.
    + by rewrite <- Hr, take_drop.
    + rewrite length_take. lia.
Qed.

(** If [a] occurs at [p] and [b] starts [d] characters further on, inside
    or right after it, the two agree where they overlap. *)
Lemma overlap_agrees a b c p d :
  occurs_at a c p → occurs_at b c (p + d) → d ≤ length a →
  can_overlap a b d = true.
Proof.
  intros (_ & ra & Ha)%occurs_at_drop_app (_ & rb & Hb)%occurs_at_drop_app Hd.
  unfold can_overlap. apply (agree_app _ _ ra rb).
  rewrite <- Hb, <- drop_drop, Ha. symmetry. by apply drop_app_le.
Qed.

Lemma never_overlap_spec a b lo hi d :
  never_overlap a b lo hi = true → lo ≤ d < hi → can_overlap a b d = false.
Proof.
  unfold never_overlap. rewrite forallb_forall. intros H Hd.
  apply negb_true_iff, H, in_seq. lia.
Qed.

(** [b] cannot start inside an occurrence of [a] at an offset that the
    table rules out. *)
Lemma occurs_apart a b c p q lo hi :
  never_overlap a b lo hi = true → hi ≤ S (length a) →
  occurs_at a c p → occurs_at b c q → p + lo ≤ q → p + hi ≤ q.
Proof.
  intros Htab Hhi Ha Hb Hq.
  destruct (decide (p + hi ≤ q)) as [|Hn]; [done|].
  assert (Hd : lo ≤ q - p < hi) by lia.
  pose proof (never_overlap_spec _ _ _ _ _ Htab Hd) as Hno.
  rewrite (overlap_agrees a b c p (q - p)) in Hno; [done|done| |lia].
  by replace (p + (q - p)) with q by lia.
Qed.

(** The end marker cannot start inside the start marker, nor the closing
    delimiter inside the end marker. *)
Lemma start_end_apart :
  never_overlap old_start old_end_marker 0 (length old_start) = true.
Proof. vm_compute. reflexivity. Qed.

Lemma end_closing_apart :
  never_overlap old_end_marker closing_lit 0 (length old_end_marker) = true.
Proof. vm_compute. reflexivity. Qed.

(** The lookups find the anchors one after the other, not one inside the
    other. *)
Lemma locate_apart content i j k :
  first_from old_start content 0 i →
  first_from old_end_marker content i j →
  first_from closing_lit content j k →
  i + length old_start ≤ j ∧ j + length old_end_marker ≤ k.
Proof.
  intros (_ & Hi & _) (Hij & Hj & _) (Hjk & Hk & _). split.
  - eapply (occurs_apart old_start old_end_marker content i j 0);
      [apply start_end_apart|lia|done|done|lia].
  - eapply (occurs_apart old_end_marker closing_lit content j k 0);
      [apply end_closing_apart|lia|done|done|lia].
Qed.

Lemma slice_app_mid (content : text) (lo mid hi : nat) :
  lo ≤ mid ≤ hi → hi ≤ length content →
  slice content lo hi = slice content lo mid ++ slice content mid hi.
Proof.
  intros H Hlen. unfold slice.
  rewrite <- (take_drop mid (take hi content)) at 1.
  rewrite take_take, Nat.min_l by lia.
  apply drop_app_le. rewrite length_take. lia.
Qed.

End Overlap.

(** ** Texts that hold the replacement block *)

Section Rerun.

Implicit Types s before rest content : text.

Lemma occurs_at_app_l sub before rest q :
  occurs_at sub (before ++ rest) q → q + length sub ≤ length before →
  occurs_at sub before q.
Proof.
  intros [_ H] Hq. split; [lia|].
  unfold slice in *. by rewrite take_app_le in H by lia.
Qed.

Lemma occurs_at_app_r sub before rest q :
  occurs_at sub (before ++ rest) q → length before ≤ q →
  occurs_at sub rest (q - length before).
Proof.
  intros H Hq.
  replace q with (length before + (q - length before)) in H by lia.
  apply occurs_at_drop in H; [|rewrite length_app; lia].
  by rewrite drop_app_length in H.
Qed.

Lemma occurs_at_here s before rest :
  occurs_at s (before ++ s ++ rest) (length before).
Proof. apply occurs_at_split. by exists before, rest. Qed.

(** Where the anchors of the replacement block are not. *)
Lemma start_block_apart : never_overlap old_start new_section 1 36 = true.
Proof. vm_compute. reflexivity. Qed.

Lemma block_start_apart : never_overlap new_section old_start 0 123 = true.
Proof. vm_compute. reflexivity. Qed.

Lemma block_end_apart :
  never_overlap new_section old_end_marker 123 1944 = true.
Proof. vm_compute. reflexivity. Qed.

Lemma block_closing_apart :
  never_overlap new_section closing_lit 1944 1993 = true.
Proof. vm_compute. reflexivity. Qed.

Lemma start_head_apart : never_overlap old_start block_head 1 36 = true.
Proof. vm_compute. reflexivity. Qed.

Lemma head_unmarked : index block_head old_start 0 = None.
Proof. vm_compute. reflexivity. Qed.

Lemma length_new_section : length new_section = 2433.
Proof. vm_compute. reflexivity. Qed.

(** In a text with a copy of the replacement block and no start marker
    before it, the lookups find the anchors of that copy. *)
Lemma rerun_locate before rest :
  unmarked_text before →
  locate (before ++ new_section ++ rest)
  = Some (length before + 123, length before + 1995).
Proof.
  intros Hclean. set (s := before ++ new_section ++ rest).
  pose proof (occurs_at_here new_section before rest) as Hblock.
  destruct new_section_anchors as (H1 & H2 & H3).
  apply locate_Some.
  exists (length before + 1944), (length before + 1993).
  split; [|split; [|split; [|lia]]].
  - split; [lia|]. split; [by apply occurs_at_app|].
    intros q [_ Hq] Hocc.
    destruct (decide (length before ≤ q)) as [Hge|Hlt].
    + pose proof (occurs_apart _ _ _ _ q 0 123 block_start_apart
                    ltac:(rewrite length_new_section; lia) Hblock Hocc).
      lia.
    + destruct (decide (q + length old_start ≤ length before)) as [Hin|Hout].
      * by apply (Hclean q), (occurs_at_app_l _ _ (new_section ++ rest)).
      * pose proof (occurs_apart _ _ _ q _ 1 36 start_block_apart
                      ltac:(simpl; lia) Hocc Hblock) as H.
        change (length old_start) with 36 in Hout. lia.
  - split; [lia|]. split; [by apply occurs_at_app|].
    intros q Hq Hocc.
    pose proof (occurs_apart _ _ _ _ q 123 1944 block_end_apart
                  ltac:(rewrite length_new_section; lia) Hblock Hocc).
    lia.
  - split; [lia|]. split; [by apply occurs_at_app|].
    intros q Hq Hocc.
    pose proof (occurs_apart _ _ _ _ q 1944 1993 block_closing_apart
                  ltac:(rewrite length_new_section; lia) Hblock Hocc).
    lia.
Qed.

(** The head of the replacement block adds no start marker. *)
Lemma unmarked_head before :
  unmarked_text before → unmarked_text (before ++ block_head).
Proof.
  intros Hclean q Hocc.
  destruct (decide (length before ≤ q)) as [Hge|Hlt].
  - apply occurs_at_app_r in Hocc; [|done].
    eapply (index_None _ _ _ head_unmarked); [|done]. lia.
  - destruct (decide (q + length old_start ≤ length before)) as [Hin|Hout].
    + by apply (Hclean q), (occurs_at_app_l _ _ block_head).
    + assert (Hhead : occurs_at block_head (before ++ block_head)
                        (length before)).
      { rewrite <- (app_nil_r block_head) at 2. apply occurs_at_here. }
      pose proof (occurs_apart _ _ _ q _ 1 36 start_head_apart
                    ltac:(simpl; lia) Hocc Hhead) as H.
      change (length old_start) with 36 in Hout. lia.
Qed.

(** The text before the region of a first run has no start marker. *)
Lemma unmarked_prefix content i :
  first_from old_start content 0 i → unmarked_text (take i content).
Proof.
  intros (_ & _ & Hmin) q Hocc.
  pose proof (occurs_at_bound _ _ _ Hocc) as Hb.
  rewrite length_take in Hb. change (length old_start) with 36 in Hb.
  apply (Hmin q); [lia|].
  apply occurs_at_split in Hocc as (pre & suf & Heq & Hlen).
  apply occurs_at_split. exists pre, (suf ++ drop i content).
  split; [|done].
  rewrite <- (take_drop i content) at 1. rewrite Heq.
  by rewrite <- !app_assoc.
Qed.

Lemma spliced_rerunnable content i e :
  locate content = Some (i, e) → rerunnable (spliced content i e).
Proof.
  intros (j & k & Hi & _)%locate_Some.
  exists (take i content), (drop e content).
  split; [done|]. by apply unmarked_prefix.
Qed.

(** What a further run makes of such a text. *)
Lemma rerun_spliced before rest :
  spliced (before ++ new_section ++ rest)
          (length before + 123) (length before + 1995)
  = (before ++ block_head) ++ new_section ++ (block_tail ++ rest).
Proof.
  unfold spliced, block_head, block_tail.
  rewrite take_app_add, drop_app_add.
  rewrite take_app_le, drop_app_le by (rewrite length_new_section; lia).
  by rewrite <- !app_assoc.
Qed.

Lemma rerun_slice before rest :
  slice (before ++ new_section ++ rest)
        (length before + 123) (length before + 1995)
  = slice new_section 123 1995.
Proof.
  unfold slice.
  rewrite take_app_add, drop_app_add.
  by rewrite take_app_le by (rewrite length_new_section; lia).
Qed.

(** The part of the replacement block a further run prints is ASCII. *)
Lemma block_region_ascii :
  forallb (λ c, (c <? 128)%N) (slice new_section 123 1995) = true.
Proof. vm_compute. reflexivity. Qed.

Lemma rerunnable_step s :
  rerunnable s →
  ∃ i e, locate s = Some (i, e)
       ∧ rerunnable (spliced s i e)
       ∧ length (spliced s i e) = length s + 561
       ∧ slice s i e = slice new_section 123 1995.
Proof.
  intros (before & rest & -> & Hclean).
  exists (length before + 123), (length before + 1995).
  split; [by apply rerun_locate|].
  rewrite rerun_spliced, rerun_slice.
  split; [|split; [|done]].
  - exists (before ++ block_head), (block_tail ++ rest).
    split; [done|]. by apply unmarked_head.
  - rewrite !length_app. unfold block_head, block_tail.
    rewrite length_take, length_drop, length_new_section. lia.
Qed.

End Rerun.

(** * The claims *)

(** ** Successful runs *)

(** C1. On every source text that contains the start marker, the end
    marker at or after it and the closing delimiter at or after that, the
    run returns, and the new text is prefix + replacement block + suffix:
    the prefix is the source text before the start marker's position, the
    suffix the source text after the matched closing delimiter; this text
    is what the run writes to the file and what the file holds afterwards.
    The target file is taken to be readable and writable, standard output
    to be able to encode the old section, which the run prints before it
    writes, and the device to work. *)
Theorem run_splices (w : world) (content : text) :
  fs w !! filepath = Some (File true true content) →
  anchors_in_order content →
  can_print w (old_section_of content) = true →
  disk w = Works →
  ∃ i j k,
    first_from old_start content 0 i
    ∧ first_from old_end_marker content i j
    ∧ first_from closing_lit content j k
    ∧ let prefix := take i content in
      let suffix := drop (k + length closing_lit) content in
      outcome w = Ok ()
      ∧ fs (after w)
        = <[filepath := File true true (prefix ++ new_section ++ suffix)]> (fs w)
      ∧ ∃ evs, trace (after w)
               = trace w ++ evs
                 ++ [ EvWrite filepath (prefix ++ new_section ++ suffix);
                      EvPrint (lit "Done! Feeds updated successfully.") ].
Proof.
  intros Hf (i & e & Hloc)%locate_anchors Hp Hd.
  rewrite (old_section_of_locate _ _ _ Hloc) in Hp.
  pose proof Hloc as (j & k & Hi & Hj & Hk & ->)%locate_Some.
  exists i, j, k. do 3 (split; [done|]).
  unfold outcome, after.
  rewrite (main_done w _ i (k + 2) Hf Hloc Hp Hd).
  cbn [fst snd fs trace set_fs extend data].
  split; [done|]. split; [done|].
  exists (printed content i (k + 2)). reflexivity.
Qed.

Lemma run_splices_sample :
  (fs sample_world !! filepath = Some (File true true sample)
   ∧ anchors_in_order sample
   ∧ can_print sample_world (old_section_of sample) = true
   ∧ disk sample_world = Works)
  ∧ ∃ i j k,
      first_from old_start sample 0 i
      ∧ first_from old_end_marker sample i j
      ∧ first_from closing_lit sample j k
      ∧ outcome sample_world = Ok ()
      ∧ fs (after sample_world)
        = <[filepath := File true true
              (take i sample ++ new_section
               ++ drop (k + length closing_lit) sample)]> (fs sample_world)
      ∧ ∃ evs, trace (after sample_world)
               = trace sample_world ++ evs
                 ++ [ EvWrite filepath
                        (take i sample ++ new_section
                         ++ drop (k + length closing_lit) sample);
                      EvPrint (lit "Done! Feeds updated successfully.") ].
Proof.
  assert (Hf : fs sample_world !! filepath = Some (File true true sample))
    by (vm_compute; reflexivity).
  assert (Ha : anchors_in_order sample).
  { exists 91, 171, 220. repeat split; vm_compute; (reflexivity || lia). }
  assert (Hp : can_print sample_world (old_section_of sample) = true)
    by (vm_compute; reflexivity).
  assert (Hd : disk sample_world = Works) by reflexivity.
  split; [by repeat split|].
  exact (run_splices sample_world sample Hf Ha Hp Hd).
Defined.

(** C4. On every source text on which the run returns, the region is
    bounded thus: it starts at the first occurrence of the start marker;
    the end marker is the first occurrence at or after that position; the
    closing delimiter is the first occurrence at or after the end
    marker's position; the region ends right after that delimiter.  These
    are the bounds of the old section the run prints and of the part of
    the text it replaces. *)
Theorem region_is_first_occurrences (w : world) (f : file) :
  fs w !! filepath = Some f →
  outcome w = Ok () →
  ∃ i j k,
    first_from old_start (data f) 0 i
    ∧ first_from old_end_marker (data f) i j
    ∧ first_from closing_lit (data f) j k
    ∧ locate (data f) = Some (i, k + length closing_lit)
    ∧ trace (after w) = trace w ++
        [ EvOpen filepath ModeR;
          EvPrint (lit "=== OLD SECTION ===");
          EvPrint (slice (data f) i (k + length closing_lit));
          EvPrint (lit "=== END OLD ===");
          EvOpen filepath ModeW;
          EvWrite filepath
            (take i (data f) ++ new_section
             ++ drop (k + length closing_lit) (data f));
          EvPrint (lit "Done! Feeds updated successfully.") ].
Proof.
  intros Hf (content & i & e & Hf' & Hloc & Hp & Hd & Hm)%main_Ok_inv.
  simplify_eq. cbn [data].
  pose proof Hloc as (j & k & Hi & Hj & Hk & ->)%locate_Some.
  exists i, j, k. do 4 (split; [done|]).
  unfold after. by rewrite Hm.
Qed.

Lemma region_is_first_occurrences_sample :
  (fs sample_world !! filepath = Some (File true true sample)
   ∧ outcome sample_world = Ok ())
  ∧ ∃ i j k,
      first_from old_start sample 0 i
      ∧ first_from old_end_marker sample i j
      ∧ first_from closing_lit sample j k
      ∧ locate sample = Some (i, k + length closing_lit)
      ∧ trace (after sample_world) = trace sample_world ++
          [ EvOpen filepath ModeR;
            EvPrint (lit "=== OLD SECTION ===");
            EvPrint (slice sample i (k + length closing_lit));
            EvPrint (lit "=== END OLD ===");
            EvOpen filepath ModeW;
            EvWrite filepath
              (take i sample ++ new_section
               ++ drop (k + length closing_lit) sample);
            EvPrint (lit "Done! Feeds updated successfully.") ].
Proof.
  assert (Hf : fs sample_world !! filepath = Some (File true true sample))
    by (vm_compute; reflexivity).
  assert (Hok : outcome sample_world = Ok ()) by (vm_compute; reflexivity).
  split; [by split|].
  exact (region_is_first_occurrences sample_world _ Hf Hok).
Defined.

(** C5. On every source text on which the run returns, the old section
    printed between the two banner lines is exactly the substring of the
    original text from the start marker's position to the end of the
    matched closing delimiter, and it is printed before the file is opened
    for writing and written. *)
Theorem old_section_printed (w : world) (f : file) :
  fs w !! filepath = Some f →
  outcome w = Ok () →
  ∃ i j k new_text,
    first_from old_start (data f) 0 i
    ∧ first_from old_end_marker (data f) i j
    ∧ first_from closing_lit (data f) j k
    ∧ let old_section := slice (data f) i (k + length closing_lit) in
      data f = take i (data f) ++ old_section
               ++ drop (k + length closing_lit) (data f)
      ∧ trace (after w) = trace w ++
          [ EvOpen filepath ModeR;
            EvPrint (lit "=== OLD SECTION ===");
            EvPrint old_section;
            EvPrint (lit "=== END OLD ===");
            EvOpen filepath ModeW;
            EvWrite filepath new_text;
            EvPrint (lit "Done! Feeds updated successfully.") ]
      ∧ stdout_of (trace (after w)) = stdout_of (trace w)
          ++ ln "=== OLD SECTION ==="
          ++ old_section ++ [newline]
          ++ ln "=== END OLD ==="
          ++ ln "Done! Feeds updated successfully.".
Proof.
  intros Hf (content & i & e & Hf' & Hloc & Hp & Hd & Hm)%main_Ok_inv.
  simplify_eq. cbn [data].
  pose proof (locate_bounds _ _ _ Hloc) as Hb.
  pose proof Hloc as (j & k & Hi & Hj & Hk & ->)%locate_Some.
  exists i, j, k, (spliced content i (k + 2)). do 3 (split; [done|]).
  cbv zeta. split; [apply slice_split; simpl; lia|].
  unfold after. rewrite Hm.
  cbn [fst snd fs trace set_fs extend].
  split; [done|].
  unfold stdout_of. rewrite flat_map_app. f_equal.
  unfold completed, printed, ln. simpl flat_map.
  by rewrite <- !app_assoc.
Qed.

Lemma old_section_printed_sample :
  (fs sample_world !! filepath = Some (File true true sample)
   ∧ outcome sample_world = Ok ())
  ∧ ∃ i j k new_text,
      first_from old_start sample 0 i
      ∧ first_from old_end_marker sample i j
      ∧ first_from closing_lit sample j k
      ∧ sample = take i sample ++ slice sample i (k + length closing_lit)
                 ++ drop (k + length closing_lit) sample
      ∧ trace (after sample_world) = trace sample_world ++
          [ EvOpen filepath ModeR;
            EvPrint (lit "=== OLD SECTION ===");
            EvPrint (slice sample i (k + length closing_lit));
            EvPrint (lit "=== END OLD ===");
            EvOpen filepath ModeW;
            EvWrite filepath new_text;
            EvPrint (lit "Done! Feeds updated successfully.") ]
      ∧ stdout_of (trace (after sample_world)) = stdout_of (trace sample_world)
          ++ ln "=== OLD SECTION ==="
          ++ slice sample i (k + length closing_lit) ++ [newline]
          ++ ln "=== END OLD ==="
          ++ ln "Done! Feeds updated successfully.".
Proof.
  assert (Hf : fs sample_world !! filepath = Some (File true true sample))
    by (vm_compute; reflexivity).
  assert (Hok : outcome sample_world = Ok ()) by (vm_compute; reflexivity).
  split; [by split|].
  exact (old_section_printed sample_world _ Hf Hok).
Defined.

(** C9. On every source text on which the run returns, the located region
    is not empty (its end position is greater than its start position) and
    its last two characters are the closing delimiter; so the old section
    the run prints ends with the closing delimiter. *)
Theorem region_ends_with_closing (w : world) (f : file) :
  fs w !! filepath = Some f →
  outcome w = Ok () →
  ∃ start_idx end_idx,
    locate (data f) = Some (start_idx, end_idx)
    ∧ start_idx < end_idx ≤ length (data f)
    ∧ length (slice (data f) start_idx end_idx) = end_idx - start_idx
    ∧ slice (data f) (end_idx - 2) end_idx = closing_lit
    ∧ (∃ body, slice (data f) start_idx end_idx = body ++ closing_lit)
    ∧ trace (after w)
      = trace w ++ completed (data f) start_idx end_idx.
Proof.
  intros Hf (content & i & e & Hf' & Hloc & Hp & Hd & Hm)%main_Ok_inv.
  simplify_eq. cbn [data].
  pose proof (locate_bounds _ _ _ Hloc) as Hb.
  exists i, e. split; [done|]. split; [done|].
  split; [apply length_slice; lia|].
  split.
  - apply locate_Some in Hloc as (j & k & _ & _ & (_ & [_ Hk] & _) & ->).
    by replace (k + 2 - 2) with k by lia.
  - split; [eexists; by apply locate_ends|].
    unfold after. by rewrite Hm.
Qed.

Lemma region_ends_with_closing_sample :
  (fs sample_world !! filepath = Some (File true true sample)
   ∧ outcome sample_world = Ok ())
  ∧ ∃ start_idx end_idx,
      locate sample = Some (start_idx, end_idx)
      ∧ start_idx < end_idx ≤ length sample
      ∧ length (slice sample start_idx end_idx) = end_idx - start_idx
      ∧ slice sample (end_idx - 2) end_idx = closing_lit
      ∧ (∃ body, slice sample start_idx end_idx = body ++ closing_lit)
      ∧ trace (after sample_world)
        = trace sample_world ++ completed sample start_idx end_idx.
Proof.
  assert (Hf : fs sample_world !! filepath = Some (File true true sample))
    by (vm_compute; reflexivity).
  assert (Hok : outcome sample_world = Ok ()) by (vm_compute; reflexivity).
  split; [by split|].
  exact (region_ends_with_closing sample_world _ Hf Hok).
Defined.

(** C10. The replacement block contains, in this order, the start marker,
    the end marker and a later closing delimiter; so the text a returning
    run leaves in the file again has the three anchors in the order the
    locator needs. *)
Theorem replacement_keeps_anchors :
  (occurs_at old_start new_section 123
   ∧ 123 + length old_start ≤ 1944
   ∧ occurs_at old_end_marker new_section 1944
   ∧ 1944 + length old_end_marker ≤ 1993
   ∧ occurs_at closing_lit new_section 1993)
  ∧ ∀ w : world,
      outcome w = Ok () →
      ∃ new_text,
        fs (after w) !! filepath = Some (File true true new_text)
        ∧ anchors_in_order new_text
        ∧ ∃ i e, locate new_text = Some (i, e).
Proof.
  split.
  - destruct new_section_anchors as (H1 & H2 & H3).
    repeat (split; [first [done|vm_compute; lia]|]). done.
  - intros w (content & i & e & Hf & Hloc & Hp & Hd & Hm)%main_Ok_inv.
    exists (spliced content i e).
    unfold after. rewrite Hm.
    cbn [fst snd fs trace set_fs extend].
    split; [apply lookup_insert_eq|].
    split; [apply spliced_anchors|].
    apply locate_anchors, spliced_anchors.
Qed.

Lemma replacement_keeps_anchors_sample :
  outcome sample_world = Ok ()
  ∧ ∃ new_text,
      fs (after sample_world) !! filepath = Some (File true true new_text)
      ∧ anchors_in_order new_text
      ∧ ∃ i e, locate new_text = Some (i, e).
Proof.
  assert (Hok : outcome sample_world = Ok ()) by (vm_compute; reflexivity).
  split; [done|].
  exact (proj2 replacement_keeps_anchors sample_world Hok).
Defined.

(** ** Failed lookups *)

(** C2. On every source text in which the start marker is absent, or the
    end marker is absent at or after the start marker's position, or the
    closing delimiter is absent at or after the end marker's position, the
    run dies of the lookup's [ValueError]; the file is never opened for
    writing and the file system is as it was. *)
Theorem missing_anchor_fails (w : world) (wr : bool) (content : text) :
  fs w !! filepath = Some (File true wr content) →
  anchor_missing content →
  outcome w = Raise ValueError
  ∧ fs (after w) = fs w
  ∧ trace (after w) = trace w ++ [EvOpen filepath ModeR].
Proof.
  intros Hf Hloc%anchor_missing_locate.
  unfold outcome, after.
  by rewrite (main_not_found w _ _ Hf Hloc).
Qed.

Lemma missing_anchor_fails_unmarked :
  (fs unmarked_world !! filepath = Some (File true true unmarked)
   ∧ anchor_missing unmarked)
  ∧ outcome unmarked_world = Raise ValueError
  ∧ fs (after unmarked_world) = fs unmarked_world
  ∧ trace (after unmarked_world)
    = trace unmarked_world ++ [EvOpen filepath ModeR].
Proof.
  assert (Hf : fs unmarked_world !! filepath
               = Some (File true true unmarked))
    by (vm_compute; reflexivity).
  assert (Hm : anchor_missing unmarked).
  { left. intros p. apply (index_None old_start unmarked 0); [|lia].
    vm_compute. reflexivity. }
  split; [by split|].
  exact (missing_anchor_fails unmarked_world true unmarked Hf Hm).
Defined.

(** C6. The scenario text has the start marker and no end marker; on it
    the run dies of the lookup's [ValueError] and nothing is written. *)
Theorem scenario_fails (w : world) (wr : bool) :
  fs w !! filepath = Some (File true wr scenario) →
  occurs_at old_start scenario 2
  ∧ (∀ q, ¬ occurs_at old_end_marker scenario q)
  ∧ outcome w = Raise ValueError
  ∧ fs (after w) = fs w
  ∧ trace (after w) = trace w ++ [EvOpen filepath ModeR].
Proof.
  intros Hf.
  split; [split; vm_compute; (reflexivity || lia)|].
  split.
  { intros q. apply (index_None old_end_marker scenario 0); [|lia].
    vm_compute. reflexivity. }
  assert (Hloc : locate scenario = None) by (vm_compute; reflexivity).
  unfold outcome, after.
  by rewrite (main_not_found w _ _ Hf Hloc).
Qed.

Lemma scenario_fails_run :
  fs scenario_world !! filepath = Some (File true true scenario)
  ∧ outcome scenario_world = Raise ValueError
  ∧ fs (after scenario_world) = fs scenario_world
  ∧ trace (after scenario_world)
    = trace scenario_world ++ [EvOpen filepath ModeR].
Proof.
  assert (Hf : fs scenario_world !! filepath
               = Some (File true true scenario))
    by (vm_compute; reflexivity).
  split; [done|].
  exact (proj2 (proj2 (scenario_fails scenario_world true Hf))).
Defined.

(** ** Failing file traffic *)

(** C8. If opening the target file for reading fails (no such file, or no
    permission), the run dies of that error having done nothing but the
    failed [open]: no write is attempted and the file system is as it was.
    The same holds when the path names a directory or bytes that are not
    UTF-8.  Errors of the write end the run as well, without the closing
    message: when the file may not be written, the failed [open] is the
    last thing the run does and the file is as it was; when the device
    gives up during the write, the file is left with the part of the new
    text that reached it.  The write is only reached when the old section
    could be printed; when it cannot, the run dies at that [print] and
    the file is as it was. *)
Theorem io_failure_aborts (w : world) :
  (read_fails w →
     (outcome w = Raise FileNotFoundError ∨ outcome w = Raise PermissionError)
     ∧ fs (after w) = fs w
     ∧ trace (after w) = trace w ++ [EvOpen filepath ModeR])
  ∧ (read_rejected w →
       (outcome w = Raise IsADirectoryError
        ∨ outcome w = Raise UnicodeDecodeError)
       ∧ fs (after w) = fs w
       ∧ trace (after w) = trace w ++ [EvOpen filepath ModeR])
  ∧ (write_fails w →
       outcome w = Raise PermissionError
       ∧ fs (after w) = fs w
       ∧ ∃ old_section,
           trace (after w) = trace w ++
             [ EvOpen filepath ModeR;
               EvPrint (lit "=== OLD SECTION ===");
               EvPrint old_section;
               EvPrint (lit "=== END OLD ===");
               EvOpen filepath ModeW ])
  ∧ (∀ kept, write_cut w kept →
       outcome w = Raise OSError
       ∧ ∃ old_section new_text,
           fs (after w)
           = <[filepath := File true true (take kept new_text)]> (fs w)
           ∧ trace (after w) = trace w ++
               [ EvOpen filepath ModeR;
                 EvPrint (lit "=== OLD SECTION ===");
                 EvPrint old_section;
                 EvPrint (lit "=== END OLD ===");
                 EvOpen filepath ModeW;
                 EvCut filepath (take kept new_text) ])
  ∧ (print_fails w →
       outcome w = Raise UnicodeEncodeError
       ∧ fs (after w) = fs w
       ∧ trace (after w) = trace w ++
           [ EvOpen filepath ModeR; EvPrint (lit "=== OLD SECTION ===") ]).
Proof.
  unfold outcome, after. split; [|split; [|split; [|split]]].
  - intros [Hf|(f & Hf & Hr)].
    + rewrite (main_missing w Hf). by split; [left|].
    + rewrite (main_unreadable w f Hf Hr). by split; [right|].
  - intros (wr & [Hf|Hf]).
    + rewrite (main_directory w wr Hf). by split; [left|].
    + rewrite (main_undecodable w wr Hf). by split; [right|].
  - intros (content & Hf & [[i e] Hloc] & Hp).
    rewrite (old_section_of_locate _ _ _ Hloc) in Hp.
    rewrite (main_read_only w content i e Hf Hloc Hp).
    split; [done|]. split; [done|]. by eexists.
  - intros kept (content & Hf & [[i e] Hloc] & Hp & Hd).
    rewrite (old_section_of_locate _ _ _ Hloc) in Hp.
    rewrite (main_cut w content i e kept Hf Hloc Hp Hd).
    split; [done|]. by eexists _, (spliced content i e).
  - intros (wr & content & Hf & [[i e] Hloc] & Hp).
    rewrite (old_section_of_locate _ _ _ Hloc) in Hp.
    by rewrite (main_unprintable w wr content i e Hf Hloc Hp).
Qed.

Lemma io_failure_aborts_runs :
  (read_fails empty_world
   ∧ outcome empty_world = Raise FileNotFoundError
   ∧ fs (after empty_world) = fs empty_world
   ∧ trace (after empty_world) = trace empty_world ++ [EvOpen filepath ModeR])
  ∧ (read_rejected directory_world
     ∧ outcome directory_world = Raise IsADirectoryError
     ∧ fs (after directory_world) = fs directory_world)
  ∧ (write_fails read_only_world
     ∧ outcome read_only_world = Raise PermissionError
     ∧ fs (after read_only_world) = fs read_only_world)
  ∧ (write_cut failing_disk_world 100
     ∧ outcome failing_disk_world = Raise OSError
     ∧ target_length (after failing_disk_world) = Some 100)
  ∧ (print_fails ascii_read_only_world
     ∧ outcome ascii_read_only_world = Raise UnicodeEncodeError
     ∧ fs (after ascii_read_only_world) = fs ascii_read_only_world).
Proof.
  assert (Hr : read_fails empty_world) by (left; vm_compute; reflexivity).
  assert (Hj : read_rejected directory_world)
    by (exists true; left; vm_compute; reflexivity).
  assert (Hw : write_fails read_only_world).
  { exists sample. split; [vm_compute; reflexivity|].
    split; [exists (91, 222)|]; vm_compute; reflexivity. }
  assert (Hc : write_cut failing_disk_world 100).
  { exists sample. split; [vm_compute; reflexivity|].
    split; [exists (91, 222); vm_compute; reflexivity|].
    split; [vm_compute; reflexivity|reflexivity]. }
  assert (Hp : print_fails ascii_read_only_world).
  { exists false, accented. split; [vm_compute; reflexivity|].
    split; [exists (23, 136)|]; vm_compute; reflexivity. }
  destruct (io_failure_aborts empty_world) as (H1 & _).
  destruct (io_failure_aborts directory_world) as (_ & H2 & _).
  destruct (io_failure_aborts read_only_world) as (_ & _ & H3 & _).
  destruct (io_failure_aborts failing_disk_world) as (_ & _ & _ & H4 & _).
  destruct (io_failure_aborts ascii_read_only_world) as (_ & _ & _ & _ & H5).
  destruct (H1 Hr) as (_ & H1f & H1t).
  destruct (H2 Hj) as (_ & H2f & _).
  destruct (H3 Hw) as (H3o & H3f & _).
  destruct (H4 100 Hc) as (H4o & _).
  destruct (H5 Hp) as (H5o & H5f & _).
  split; [split; [done|]; split; [vm_compute; reflexivity|]; by split|].
  split; [split; [done|]; split; [vm_compute; reflexivity|done]|].
  split; [by split|].
  split; [split; [done|]; split; [done|vm_compute; reflexivity]|].
  by split.
Defined.

(** ** What a run depends on *)

(** C7, as the code has it.  The target path is the literal
    [src/services/news.service.ts], and the script reads neither its
    arguments nor the environment; but what [print] can print is fixed by
    the codec of standard output, which the interpreter takes from the
    environment.  Two runs in worlds that agree on the file at the target
    path, on that codec and on the device, whatever their arguments, the
    rest of their environment and their other files, end the same way, do
    and print the same things, and leave the same file; no other file is
    touched, and arguments and environment are left as they were. *)
Theorem run_depends_on_target_only (w1 w2 : world) :
  fs w1 !! filepath = fs w2 !! filepath →
  stdout_encoding w1 = stdout_encoding w2 →
  disk w1 = disk w2 →
  filepath = "src/services/news.service.ts"
  ∧ outcome w1 = outcome w2
  ∧ (∃ evs, trace (after w1) = trace w1 ++ evs
          ∧ trace (after w2) = trace w2 ++ evs
          ∧ stdout_of (trace (after w1)) = stdout_of (trace w1) ++ stdout_of evs
          ∧ stdout_of (trace (after w2)) = stdout_of (trace w2) ++ stdout_of evs)
  ∧ fs (after w1) !! filepath = fs (after w2) !! filepath
  ∧ (∀ p, p ≠ filepath → fs (after w1) !! p = fs w1 !! p)
  ∧ argv (after w1) = argv w1
  ∧ environ (after w1) = environ w1.
Proof.
  intros Heq Henc Hdisk. split; [reflexivity|].
  assert (Hprint : ∀ s, can_print w1 s = can_print w2 s)
    by (intros s; unfold can_print; by rewrite Henc).
  assert (Hgoal : ∀ r evs m1 m2,
    main w1 = (r, set_fs m1 (extend evs w1)) →
    main w2 = (r, set_fs m2 (extend evs w2)) →
    m1 !! filepath = m2 !! filepath →
    (∀ p, p ≠ filepath → m1 !! p = fs w1 !! p) →
    outcome w1 = outcome w2
    ∧ (∃ evs, trace (after w1) = trace w1 ++ evs
            ∧ trace (after w2) = trace w2 ++ evs
            ∧ stdout_of (trace (after w1))
              = stdout_of (trace w1) ++ stdout_of evs
            ∧ stdout_of (trace (after w2))
              = stdout_of (trace w2) ++ stdout_of evs)
    ∧ fs (after w1) !! filepath = fs (after w2) !! filepath
    ∧ (∀ p, p ≠ filepath → fs (after w1) !! p = fs w1 !! p)
    ∧ argv (after w1) = argv w1
    ∧ environ (after w1) = environ w1).
  { intros r evs m1 m2 E1 E2 Hm Hp.
    assert (T1 : trace (after w1) = trace w1 ++ evs)
      by (unfold after; by rewrite E1).
    assert (T2 : trace (after w2) = trace w2 ++ evs)
      by (unfold after; by rewrite E2).
    split; [unfold outcome; by rewrite E1, E2|].
    split.
    { exists evs. split; [done|]. split; [done|].
      rewrite T1, T2. unfold stdout_of. by rewrite !flat_map_app. }
    unfold after. rewrite E1, E2. by cbn [snd fs argv environ set_fs extend]. }
  destruct (fs w1 !! filepath) as [f|] eqn:H1; symmetry in Heq.
  2:{ apply (Hgoal _ _ (fs w1) (fs w2)
               (main_missing w1 H1) (main_missing w2 Heq)); [congruence|done]. }
  destruct (readable f) eqn:Hr.
  2:{ apply (Hgoal _ _ (fs w1) (fs w2) (main_unreadable w1 f H1 Hr)
               (main_unreadable w2 f Heq Hr)); [congruence|done]. }
  destruct f as [r wr content|r wr|r wr]; cbn [readable] in Hr; subst r.
  2:{ apply (Hgoal _ _ (fs w1) (fs w2) (main_undecodable w1 wr H1)
               (main_undecodable w2 wr Heq)); [congruence|done]. }
  2:{ apply (Hgoal _ _ (fs w1) (fs w2) (main_directory w1 wr H1)
               (main_directory w2 wr Heq)); [congruence|done]. }
  destruct (locate content) as [[i e]|] eqn:Hloc.
  2:{ apply (Hgoal _ _ (fs w1) (fs w2) (main_not_found w1 wr content H1 Hloc)
               (main_not_found w2 wr content Heq Hloc)); [congruence|done]. }
  destruct (can_print w1 (slice content i e)) eqn:Hp1;
    pose proof Hp1 as Hp2; rewrite Hprint in Hp2.
  2:{ apply (Hgoal _ _ (fs w1) (fs w2)
               (main_unprintable w1 wr content i e H1 Hloc Hp1)
               (main_unprintable w2 wr content i e Heq Hloc Hp2));
        [congruence|done]. }
  destruct wr.
  2:{ apply (Hgoal _ _ (fs w1) (fs w2)
               (main_read_only w1 content i e H1 Hloc Hp1)
               (main_read_only w2 content i e Heq Hloc Hp2));
        [congruence|done]. }
  destruct (disk w1) as [|kept] eqn:Hd1; symmetry in Hdisk.
  - apply (Hgoal _ _ _ _ (main_done w1 content i e H1 Hloc Hp1 Hd1)
             (main_done w2 content i e Heq Hloc Hp2 Hdisk)).
    + by rewrite !lookup_insert_eq.
    + intros p Hp. by rewrite lookup_insert_ne.
  - apply (Hgoal _ _ _ _ (main_cut w1 content i e kept H1 Hloc Hp1 Hd1)
             (main_cut w2 content i e kept Heq Hloc Hp2 Hdisk)).
    + by rewrite !lookup_insert_eq.
    + intros p Hp. by rewrite lookup_insert_ne.
Qed.

Lemma run_depends_on_target_only_worlds :
  (fs quiet_world !! filepath = fs noisy_world !! filepath
   ∧ stdout_encoding quiet_world = stdout_encoding noisy_world
   ∧ disk quiet_world = disk noisy_world)
  ∧ argv quiet_world ≠ argv noisy_world
  ∧ environ quiet_world ≠ environ noisy_world
  ∧ outcome quiet_world = outcome noisy_world
  ∧ fs (after quiet_world) !! filepath = fs (after noisy_world) !! filepath.
Proof.
  assert (Heq : fs quiet_world !! filepath = fs noisy_world !! filepath)
    by (vm_compute; reflexivity).
  assert (Henc : stdout_encoding quiet_world = stdout_encoding noisy_world)
    by (vm_compute; reflexivity).
  assert (Hd : disk quiet_world = disk noisy_world) by reflexivity.
  destruct (run_depends_on_target_only quiet_world noisy_world Heq Henc Hd)
    as (_ & Ho & _ & Hf & _).
  split; [by repeat split|]. split; [discriminate|].
  split; [|by split].
  intros H. apply (f_equal (λ m, m !! "FEEDS_FILE")) in H.
  vm_compute in H. discriminate.
Defined.

(** C7, as the specification has it, fails on the file with an accented
    name: with the same file and the same arguments, the run returns and
    rewrites the file when the environment leaves standard output at
    UTF-8, and dies at [print(old_section)], leaving the file as it was,
    when the environment sets [PYTHONIOENCODING] to [ascii]. *)
Lemma environment_changes_the_run :
  fs accented_world !! filepath = fs ascii_world !! filepath
  ∧ argv accented_world = argv ascii_world
  ∧ environ accented_world = ∅
  ∧ environ ascii_world = {[ "PYTHONIOENCODING" := "ascii" ]}
  ∧ outcome accented_world = Ok ()
  ∧ outcome ascii_world = Raise UnicodeEncodeError
  ∧ fs (after ascii_world) = fs ascii_world
  ∧ fs (after accented_world) !! filepath
    ≠ fs (after ascii_world) !! filepath
  ∧ stdout_of (trace (after accented_world))
    ≠ stdout_of (trace (after ascii_world)).
Proof.
  assert (H1 : (length ∘ data) <$> fs (after accented_world) !! filepath
               = Some 2460) by (vm_compute; reflexivity).
  assert (H2 : (length ∘ data) <$> fs (after ascii_world) !! filepath
               = Some 140) by (vm_compute; reflexivity).
  assert (H3 : length (stdout_of (trace (after accented_world))) = 184)
    by (vm_compute; reflexivity).
  assert (H4 : length (stdout_of (trace (after ascii_world))) = 20)
    by (vm_compute; reflexivity).
  split; [vm_compute; reflexivity|]. split; [reflexivity|].
  split; [reflexivity|]. split; [reflexivity|].
  split; [vm_compute; reflexivity|]. split; [vm_compute; reflexivity|].
  split; [vm_compute; reflexivity|]. split.
  - intros Heq. rewrite Heq, H2 in H1. injection H1 as H1. lia.
  - intros Heq. rewrite Heq, H4 in H3. lia.
Qed.

(** ** Running twice *)

(** C3, as the code has it.  A second run against the file a returning
    run has left returns as well, and changes the file again: the
    replacement block itself holds the three anchors in order, and the
    region they bound is not the replacement block.  The second run is
    neither a failed lookup nor without effect. *)
Theorem rerun_succeeds_and_changes (w : world) :
  outcome w = Ok () →
  ∃ first second,
    fs (after w) !! filepath = Some (File true true first)
    ∧ outcome (after w) = Ok ()
    ∧ fs (after (after w)) !! filepath = Some (File true true second)
    ∧ second ≠ first.
Proof.
  intros (content & i & e & Hf & Hloc & Hp & Hd & Hm)%main_Ok_inv.
  pose proof (locate_bounds _ _ _ Hloc) as Hb.
  set (first := spliced content i e).
  assert (H1 : fs (after w) !! filepath = Some (File true true first)).
  { unfold after. rewrite Hm. cbn [snd fs set_fs]. apply lookup_insert_eq. }
  assert (Hclean : unmarked_text (take i content)).
  { apply locate_Some in Hloc as (j & k & Hi & _). by apply unmarked_prefix. }
  pose proof (rerun_locate _ (drop e content) Hclean) as Hloc'.
  fold (spliced content i e) in Hloc'. fold first in Hloc'.
  assert (Hp' : can_print (after w)
                  (slice first (length (take i content) + 123)
                               (length (take i content) + 1995)) = true).
  { unfold first, spliced. rewrite rerun_slice.
    apply can_print_ascii, block_region_ascii. }
  assert (Hd' : disk (after w) = Works).
  { unfold after. destruct (after_frame w) as (_ & _ & _ & ->). done. }
  pose proof (main_done (after w) _ _ _ H1 Hloc' Hp' Hd') as H2.
  eexists first, _.
  split; [done|]. split; [unfold outcome; by rewrite H2|].
  split.
  - unfold after at 1. rewrite H2. cbn [snd fs set_fs data].
    apply lookup_insert_eq.
  - by apply spliced_changes.
Qed.

Lemma rerun_succeeds_and_changes_sample :
  outcome sample_world = Ok ()
  ∧ ∃ first second,
      fs (after sample_world) !! filepath = Some (File true true first)
      ∧ outcome (after sample_world) = Ok ()
      ∧ fs (after (after sample_world)) !! filepath
        = Some (File true true second)
      ∧ second ≠ first.
Proof.
  assert (Hok : outcome sample_world = Ok ()) by (vm_compute; reflexivity).
  split; [done|].
  exact (rerun_succeeds_and_changes sample_world Hok).
Defined.

(** C3, as the specification has it, fails on the sample: the first run
    returns, the second run returns too instead of dying of a failed
    lookup, and the file it leaves is longer than the one it found. *)
Lemma rerun_neither_fails_nor_noop :
  outcome sample_world = Ok ()
  ∧ outcome (after sample_world) ≠ Raise ValueError
  ∧ outcome (after sample_world) = Ok ()
  ∧ fs (after (after sample_world)) !! filepath
    ≠ fs (after sample_world) !! filepath
  ∧ (length ∘ data) <$> fs (after sample_world) !! filepath = Some 2581
  ∧ (length ∘ data) <$> fs (after (after sample_world)) !! filepath
    = Some 3142.
Proof.
  assert (H1 : (length ∘ data) <$> fs (after sample_world) !! filepath
               = Some 2581) by (vm_compute; reflexivity).
  assert (H2 : (length ∘ data) <$> fs (after (after sample_world)) !! filepath
               = Some 3142) by (vm_compute; reflexivity).
  split; [vm_compute; reflexivity|].
  assert (Hok : outcome (after sample_world) = Ok ())
    by (vm_compute; reflexivity).
  split; [rewrite Hok; discriminate|]. split; [done|].
  split; [|by split].
  intros Heq. rewrite Heq, H1 in H2. injection H2 as H2. lia.
Qed.


(** * Further properties of the script *)


(** ** How a run ends, and what it leaves *)

(** X1. How a run ends is decided by the target file, the codec of
    standard output and the device.  It returns exactly when the file is
    readable and writable text with the three anchors in order, standard
    output can encode the old section and the device works.  It dies of
    the lookup's [ValueError] exactly when the file is readable text
    without the anchors in order, writable or not; of
    [UnicodeEncodeError] exactly when the text has the anchors and the old
    section cannot be encoded; of [FileNotFoundError], [IsADirectoryError]
    and [UnicodeDecodeError] exactly when the path is missing, a readable
    directory, readable bytes that are not UTF-8; of [PermissionError]
    exactly when the path may not be read, or the write is reached and the
    file may not be written; of [OSError] exactly when the write is
    reached and the device gives up. *)
Theorem outcome_classified (w : world) :
  (outcome w = Ok () ↔
     ∃ content, fs w !! filepath = Some (File true true content)
              ∧ anchors_in_order content
              ∧ can_print w (old_section_of content) = true
              ∧ disk w = Works)
  ∧ (outcome w = Raise ValueError ↔
       ∃ wr content, fs w !! filepath = Some (File true wr content)
                   ∧ ¬ anchors_in_order content)
  ∧ (outcome w = Raise UnicodeEncodeError ↔ print_fails w)
  ∧ (outcome w = Raise FileNotFoundError ↔ fs w !! filepath = None)
  ∧ (outcome w = Raise IsADirectoryError ↔
       ∃ wr, fs w !! filepath = Some (Directory true wr))
  ∧ (outcome w = Raise UnicodeDecodeError ↔
       ∃ wr, fs w !! filepath = Some (Binary true wr))
  ∧ (outcome w = Raise PermissionError ↔
       (∃ f, fs w !! filepath = Some f ∧ readable f = false)
       ∨ write_fails w)
  ∧ (outcome w = Raise OSError ↔ ∃ kept, write_cut w kept).
Proof.
  assert (Hinv : ∀ r, outcome w = r → run_case w r (after w)).
  { intros r <-. apply main_cases. }
  unfold print_fails, write_fails, write_cut.
  split; [|split; [|split; [|split; [|split; [|split; [|split]]]]]];
    (split; [intros Hr%Hinv; inversion Hr; subst;
             try match goal with
                 | Hl : locate ?c = Some _ |- _ =>
                     pose proof (old_section_of_locate _ _ _ Hl) as Hold
                 end|]).
  - exists content. rewrite Hold.
    split; [done|]. split; [apply locate_anchors; eauto|done].
  - intros (content & Hf & (i & e & Hloc)%locate_anchors & Hp & Hd).
    rewrite (old_section_of_locate _ _ _ Hloc) in Hp.
    unfold outcome. by rewrite (main_done w content i e Hf Hloc Hp Hd).
  - exists wr, content. split; [done|]. by apply locate_None.
  - intros (wr & content & Hf & Hloc%locate_None).
    unfold outcome. by rewrite (main_not_found w wr content Hf Hloc).
  - exists wr, content. rewrite Hold.
    split; [done|]. split; [by eexists|done].
  - intros (wr & content & Hf & [[i e] Hloc] & Hp).
    rewrite (old_section_of_locate _ _ _ Hloc) in Hp.
    unfold outcome. by rewrite (main_unprintable w wr content i e Hf Hloc Hp).
  - done.
  - intros Hf. unfold outcome. by rewrite (main_missing w Hf).
  - by exists wr.
  - intros (wr & Hf). unfold outcome. by rewrite (main_directory w wr Hf).
  - by exists wr.
  - intros (wr & Hf). unfold outcome. by rewrite (main_undecodable w wr Hf).
  - left. by exists f.
  - right. exists content. rewrite Hold.
    split; [done|]. split; [by eexists|done].
  - intros [(f & Hf & Hr)|(content & Hf & [[i e] Hloc] & Hp)].
    + unfold outcome. by rewrite (main_unreadable w f Hf Hr).
    + rewrite (old_section_of_locate _ _ _ Hloc) in Hp.
      unfold outcome. by rewrite (main_read_only w content i e Hf Hloc Hp).
  - exists kept, content. rewrite Hold.
    split; [done|]. split; [by eexists|done].
  - intros (kept & content & Hf & [[i e] Hloc] & Hp & Hd).
    rewrite (old_section_of_locate _ _ _ Hloc) in Hp.
    unfold outcome. by rewrite (main_cut w content i e kept Hf Hloc Hp Hd).
Qed.

(** X2. A run changes the file system only at its write.  A run that
    returns leaves the target file with a text different from the one it
    read, so a run that returns is never without effect.  A run that
    raises anything but the device's [OSError] leaves every file as it
    was.  A run that dies of the device's [OSError] has truncated the
    target file: it holds the part of the new text that reached it. *)
Theorem file_changes_only_at_write (w : world) :
  (outcome w = Ok () →
     data <$> fs (after w) !! filepath ≠ data <$> fs w !! filepath)
  ∧ (outcome w ≠ Ok () → outcome w ≠ Raise OSError → fs (after w) = fs w)
  ∧ (outcome w = Raise OSError →
       ∃ kept content i e,
         disk w = Fails kept
         ∧ fs w !! filepath = Some (File true true content)
         ∧ locate content = Some (i, e)
         ∧ fs (after w)
           = <[filepath := File true true
                 (take kept (take i content ++ new_section ++ drop e content))]>
               (fs w)).
Proof.
  pose proof (main_cases w) as H. unfold outcome, after.
  destruct (main w) as [r w']. cbn [fst snd] in *.
  inversion H as [Hf|f Hf Hr|wr Hf|wr Hf|wr content Hf Hloc
                 |wr content i e Hf Hloc Hp|content i e Hf Hloc Hp
                 |content i e kept Hf Hloc Hp Hd|content i e Hf Hloc Hp Hd];
    subst; clear H; cbn [fs set_fs extend];
    (split; [|split]); try done.
  - intros _. by exists kept, content, i, e.
  - intros _. rewrite lookup_insert_eq, Hf. simpl. intros [= Heq].
    by apply (spliced_changes _ _ _ Hloc).
Qed.

Lemma file_changes_only_at_write_sample :
  (outcome sample_world = Ok ()
   ∧ data <$> fs (after sample_world) !! filepath
     ≠ data <$> fs sample_world !! filepath)
  ∧ (outcome failing_disk_world = Raise OSError
     ∧ target_length failing_disk_world = Some 279
     ∧ target_length (after failing_disk_world) = Some 100)
  ∧ (outcome ascii_world ≠ Ok () ∧ outcome ascii_world ≠ Raise OSError
     ∧ fs (after ascii_world) = fs ascii_world).
Proof.
  assert (Hok : outcome sample_world = Ok ()) by (vm_compute; reflexivity).
  assert (Hos : outcome failing_disk_world = Raise OSError)
    by (vm_compute; reflexivity).
  assert (Hue : outcome ascii_world = Raise UnicodeEncodeError)
    by (vm_compute; reflexivity).
  assert (Hn1 : outcome ascii_world ≠ Ok ()) by (rewrite Hue; discriminate).
  assert (Hn2 : outcome ascii_world ≠ Raise OSError)
    by (rewrite Hue; discriminate).
  destruct (file_changes_only_at_write sample_world) as (H1 & _).
  destruct (file_changes_only_at_write ascii_world) as (_ & H2 & _).
  destruct (file_changes_only_at_write failing_disk_world) as (_ & _ & H3).
  destruct (H3 Hos) as (kept & content & i & e & _).
  split; [split; [done|by apply H1]|].
  split; [split; [done|]; split; vm_compute; reflexivity|].
  split; [done|]. split; [done|]. by apply H2.
Defined.

(** X3. The lookups find the anchors one after the other: the end marker
    cannot begin inside the start marker, nor the closing delimiter inside
    the end marker.  So the old section a returning run prints is the
    start marker, some text, the end marker, some text and the closing
    delimiter, and is at least 84 characters long. *)
Theorem old_section_holds_markers (w : world) (f : file) :
  fs w !! filepath = Some f →
  outcome w = Ok () →
  ∃ start_idx end_idx between rest,
    locate (data f) = Some (start_idx, end_idx)
    ∧ slice (data f) start_idx end_idx
      = old_start ++ between ++ old_end_marker ++ rest ++ closing_lit
    ∧ 84 ≤ end_idx - start_idx
    ∧ trace (after w) = trace w ++ completed (data f) start_idx end_idx.
Proof.
  intros Hf (content & i & e & Hf' & Hloc & Hp & Hd & Hm)%main_Ok_inv.
  simplify_eq. cbn [data].
  pose proof (locate_bounds _ _ _ Hloc) as Hb.
  pose proof Hloc as (j & k & Hi & Hj & Hk & ->)%locate_Some.
  destruct (locate_apart _ _ _ _ Hi Hj Hk) as [Hij Hjk].
  change (length old_start) with 36 in Hij.
  change (length old_end_marker) with 46 in Hjk.
  exists i, (k + 2), (slice content (i + 36) j), (slice content (j + 46) k).
  split; [done|]. split; [|split; [lia|]].
  - destruct Hi as (_ & [_ Hi] & _), Hj as (_ & [_ Hj] & _),
      Hk as (_ & [_ Hk] & _).
    rewrite <- Hi, <- Hj, <- Hk.
    change (length old_start) with 36.
    change (length old_end_marker) with 46.
    change (length closing_lit) with 2.
    rewrite (slice_app_mid _ i (i + 36) (k + 2)) by lia. f_equal.
    rewrite (slice_app_mid _ (i + 36) j (k + 2)) by lia. f_equal.
    rewrite (slice_app_mid _ j (j + 46) (k + 2)) by lia. f_equal.
    apply slice_app_mid; lia.
  - unfold after. by rewrite Hm.
Qed.

Lemma old_section_holds_markers_sample :
  (fs sample_world !! filepath = Some (File true true sample)
   ∧ outcome sample_world = Ok ())
  ∧ ∃ start_idx end_idx between rest,
      locate sample = Some (start_idx, end_idx)
      ∧ slice sample start_idx end_idx
        = old_start ++ between ++ old_end_marker ++ rest ++ closing_lit
      ∧ 84 ≤ end_idx - start_idx
      ∧ trace (after sample_world)
        = trace sample_world ++ completed sample start_idx end_idx.
Proof.
  assert (Hf : fs sample_world !! filepath = Some (File true true sample))
    by (vm_compute; reflexivity).
  assert (Hok : outcome sample_world = Ok ()) by (vm_compute; reflexivity).
  split; [by split|].
  exact (old_section_holds_markers sample_world _ Hf Hok).
Defined.


(** X4. A second run, against the file a returning run has left, finds the
    anchors inside the replacement block the first run put there: its
    region starts 123 and ends 1995 characters after the first region's
    start.  The old section it prints is that part of the replacement
    block, whatever the original file was, and the file it leaves has the
    block's first 123 characters, the whole block again and the block's
    rest where the first run had put the block. *)
Theorem second_run_shape (w : world) (f : file) :
  fs w !! filepath = Some f →
  outcome w = Ok () →
  ∃ i e,
    locate (data f) = Some (i, e)
    ∧ let prefix := take i (data f) in
      let suffix := drop e (data f) in
      let first := prefix ++ new_section ++ suffix in
      fs (after w) !! filepath = Some (File true true first)
      ∧ locate first = Some (i + 123, i + 1995)
      ∧ outcome (after w) = Ok ()
      ∧ trace (after (after w))
        = trace (after w) ++ completed first (i + 123) (i + 1995)
      ∧ slice first (i + 123) (i + 1995) = slice new_section 123 1995
      ∧ fs (after (after w)) !! filepath
        = Some (File true true
                  (prefix ++ block_head ++ new_section ++ block_tail
                   ++ suffix)).
Proof.
  intros Hf (content & i & e & Hf' & Hloc & Hp & Hd & Hm)%main_Ok_inv.
  simplify_eq. cbn [data].
  pose proof (locate_bounds _ _ _ Hloc) as Hb.
  exists i, e. split; [done|]. cbv zeta.
  set (prefix := take i content). set (suffix := drop e content).
  assert (Hlen : length prefix = i)
    by (unfold prefix; rewrite length_take; lia).
  assert (H1 : fs (after w) !! filepath
               = Some (File true true (prefix ++ new_section ++ suffix))).
  { unfold after. rewrite Hm. cbn [snd fs set_fs]. apply lookup_insert_eq. }
  assert (Hclean : unmarked_text prefix).
  { apply locate_Some in Hloc as (j & k & Hi & _). by apply unmarked_prefix. }
  pose proof (rerun_locate prefix suffix Hclean) as Hloc'.
  pose proof (rerun_slice prefix suffix) as Hslice.
  pose proof (rerun_spliced prefix suffix) as Hspl.
  rewrite Hlen in Hloc', Hslice, Hspl.
  assert (Hp' : can_print (after w)
                  (slice (prefix ++ new_section ++ suffix)
                         (i + 123) (i + 1995)) = true).
  { rewrite Hslice. apply can_print_ascii, block_region_ascii. }
  assert (Hd' : disk (after w) = Works).
  { unfold after. destruct (after_frame w) as (_ & _ & _ & ->). done. }
  pose proof (main_done (after w) _ _ _ H1 Hloc' Hp' Hd') as H2.
  split; [done|]. split; [done|].
  split; [unfold outcome; by rewrite H2|].
  split; [unfold after at 1; by rewrite H2|].
  split; [done|].
  unfold after at 1. rewrite H2. cbn [snd fs set_fs].
  rewrite lookup_insert_eq, Hspl. by rewrite <- !app_assoc.
Qed.

Lemma second_run_shape_sample :
  (fs sample_world !! filepath = Some (File true true sample)
   ∧ outcome sample_world = Ok ())
  ∧ ∃ i e,
      locate sample = Some (i, e)
      ∧ fs (after sample_world) !! filepath
        = Some (File true true (take i sample ++ new_section ++ drop e sample))
      ∧ locate (take i sample ++ new_section ++ drop e sample)
        = Some (i + 123, i + 1995)
      ∧ outcome (after sample_world) = Ok ()
      ∧ trace (after (after sample_world))
        = trace (after sample_world)
          ++ completed (take i sample ++ new_section ++ drop e sample)
                       (i + 123) (i + 1995)
      ∧ slice (take i sample ++ new_section ++ drop e sample)
              (i + 123) (i + 1995)
        = slice new_section 123 1995
      ∧ fs (after (after sample_world)) !! filepath
        = Some (File true true
                  (take i sample ++ block_head ++ new_section ++ block_tail
                   ++ drop e sample)).
Proof.
  assert (Hf : fs sample_world !! filepath = Some (File true true sample))
    by (vm_compute; reflexivity).
  assert (Hok : outcome sample_world = Ok ()) by (vm_compute; reflexivity).
  split; [by split|].
  exact (second_run_shape sample_world _ Hf Hok).
Defined.

Section Iterate.

Implicit Types w : world.

Lemma ready_after w : outcome w = Ok () → ready (after w).
Proof.
  intros (content & i & e & Hf & Hloc & Hp & Hd & Hm)%main_Ok_inv.
  exists (spliced content i e). split; [|split].
  - unfold after. rewrite Hm. cbn [snd fs set_fs]. apply lookup_insert_eq.
  - by apply spliced_rerunnable.
  - unfold after. destruct (after_frame w) as (_ & _ & _ & ->). done.
Qed.

Lemma ready_step w :
  ready w →
  outcome w = Ok () ∧ ready (after w)
  ∧ ∃ n, target_length w = Some n ∧ target_length (after w) = Some (n + 561).
Proof.
  intros (s & Hf & Hs & Hd).
  destruct (rerunnable_step s Hs) as (i & e & Hloc & Hs' & Hlen & Hsl).
  assert (Hp : can_print w (slice s i e) = true)
    by (rewrite Hsl; apply can_print_ascii, block_region_ascii).
  pose proof (main_done w _ i e Hf Hloc Hp Hd) as Hm.
  split; [unfold outcome; by rewrite Hm|].
  split.
  - exists (spliced s i e). split; [|split; [done|]].
    + unfold after. rewrite Hm. cbn [snd fs set_fs]. apply lookup_insert_eq.
    + unfold after. destruct (after_frame w) as (_ & _ & _ & ->). done.
  - exists (length s). unfold target_length, after.
    rewrite Hf, Hm. cbn [snd fs set_fs]. rewrite lookup_insert_eq.
    simpl. by rewrite Hlen.
Qed.

Lemma ready_runs w n :
  ready w →
  ready (runs n w)
  ∧ ∃ len, target_length w = Some len
         ∧ target_length (runs n w) = Some (len + 561 * n).
Proof.
  intros Hw. induction n as [|n (Hn & len & H0 & Hlen)].
  - split; [done|]. destruct Hw as (s & Hf & _).
    exists (length s). unfold runs, target_length. simpl. rewrite Hf. simpl.
    split; [done|]. f_equal. lia.
  - destruct (ready_step _ Hn) as (_ & Hn' & m & Hm & Hm').
    split; [done|]. exists len. split; [done|].
    change (runs (S n) w) with (after (runs n w)).
    rewrite Hm'. rewrite Hlen in Hm. injection Hm as <-. f_equal. lia.
Qed.

End Iterate.

(** X5. Once a run has returned, every further run returns as well, and
    each makes the file's text 561 characters longer: the script can be run
    any number of times and never reaches a text it leaves alone. *)
Theorem every_rerun_grows (w : world) :
  outcome w = Ok () →
  ∃ len,
    target_length (after w) = Some len
    ∧ ∀ n, outcome (runs n (after w)) = Ok ()
         ∧ target_length (runs n (after w)) = Some (len + 561 * n).
Proof.
  intros Hready%ready_after.
  destruct (ready_runs _ 0 Hready) as (_ & len & Hlen & _).
  exists len. split; [done|]. intros n.
  destruct (ready_runs _ n Hready) as (Hn & len' & Hlen' & Hgrow).
  split; [by apply ready_step|]. congruence.
Qed.

Lemma every_rerun_grows_sample :
  outcome sample_world = Ok ()
  ∧ ∃ len,
      target_length (after sample_world) = Some len
      ∧ ∀ n, outcome (runs n (after sample_world)) = Ok ()
           ∧ target_length (runs n (after sample_world))
             = Some (len + 561 * n).
Proof.
  assert (Hok : outcome sample_world = Ok ()) by (vm_compute; reflexivity).
  split; [done|].
  exact (every_rerun_grows sample_world Hok).
Defined.

(** ** What a run touches *)

(** X6. Whatever the world, a run opens and writes no path but the target
    path, and writes it only in a run that returns, after the three
    lookups have succeeded; a write that is cut short is to the target
    path as well; the run creates and removes no file, changes no other
    file, and only adds to what has happened so far. *)
Theorem run_touches_target_only (w : world) :
  ∃ evs,
    trace (after w) = trace w ++ evs
    ∧ (∀ p m, EvOpen p m ∈ evs → p = filepath)
    ∧ (∀ p s, EvWrite p s ∈ evs →
         p = filepath ∧ outcome w = Ok ()
         ∧ ∃ f i e, fs w !! filepath = Some f
                  ∧ locate (data f) = Some (i, e)
                  ∧ s = take i (data f) ++ new_section ++ drop e (data f))
    ∧ (∀ p s, EvCut p s ∈ evs → p = filepath ∧ outcome w = Raise OSError)
    ∧ dom (fs (after w)) = dom (fs w)
    ∧ (∀ p, p ≠ filepath → fs (after w) !! p = fs w !! p).
Proof.
  pose proof (main_cases w) as H. unfold outcome, after.
  destruct (main w) as [r w']. cbn [fst snd] in *.
  assert (Hin : ∀ (P : event → Prop) (evs : list event),
            Forall P evs → ∀ ev, ev ∈ evs → P ev)
    by (intros P evs HP ev; by apply Forall_forall).
  inversion H as [Hf|f Hf Hr|wr Hf|wr Hf|wr content Hf Hloc
                 |wr content i e Hf Hloc Hp|content i e Hf Hloc Hp
                 |content i e kept Hf Hloc Hp Hd|content i e Hf Hloc Hp Hd];
    subst; clear H; cbn [fs trace set_fs extend]; eexists;
    (split; [reflexivity|]); unfold completed, printed; simpl app.
  1-7: split; [|split; [|split; [|done]]]; intros p x Hev;
       apply (Hin (λ ev, match ev with
                         | EvOpen q _ => q = filepath
                         | EvWrite _ _ | EvCut _ _ => False
                         | EvPrint _ => True
                         end) _) in Hev;
       solve [done | repeat constructor].
  - split; [|split; [|split; [|split]]].
    + intros p x Hev.
      apply (Hin (λ ev, match ev with
                        | EvOpen q _ | EvCut q _ => q = filepath
                        | EvWrite _ _ => False
                        | EvPrint _ => True
                        end) _) in Hev; solve [done | repeat constructor].
    + intros p x Hev.
      apply (Hin (λ ev, match ev with
                        | EvOpen q _ | EvCut q _ => q = filepath
                        | EvWrite _ _ => False
                        | EvPrint _ => True
                        end) _) in Hev; solve [done | repeat constructor].
    + intros p x Hev.
      apply (Hin (λ ev, match ev with
                        | EvOpen q _ | EvCut q _ => q = filepath
                        | EvWrite _ _ => False
                        | EvPrint _ => True
                        end) _) in Hev; solve [done | repeat constructor].
    + rewrite dom_insert_L. apply elem_of_dom_2 in Hf. set_solver.
    + intros p Hp'. by rewrite lookup_insert_ne.
  - split; [|split; [|split; [|split]]].
    + intros p x Hev.
      apply (Hin (λ ev, match ev with
                        | EvOpen q _ => q = filepath
                        | EvWrite q s => q = filepath ∧ s = spliced content i e
                        | EvCut _ _ => False
                        | EvPrint _ => True
                        end) _) in Hev; solve [done | repeat constructor].
    + intros p x Hev.
      apply (Hin (λ ev, match ev with
                        | EvOpen q _ => q = filepath
                        | EvWrite q s => q = filepath ∧ s = spliced content i e
                        | EvCut _ _ => False
                        | EvPrint _ => True
                        end) _) in Hev; [|repeat constructor].
      destruct Hev as [-> ->]. split; [done|]. split; [done|].
      by exists (File true true content), i, e.
    + intros p x Hev.
      apply (Hin (λ ev, match ev with
                        | EvOpen q _ => q = filepath
                        | EvWrite q s => q = filepath ∧ s = spliced content i e
                        | EvCut _ _ => False
                        | EvPrint _ => True
                        end) _) in Hev; solve [done | repeat constructor].
    + rewrite dom_insert_L. apply elem_of_dom_2 in Hf. set_solver.
    + intros p Hp'. by rewrite lookup_insert_ne.
Qed.

(** ** The text after the region *)

Section Passthrough.

Implicit Types sub content rest : text.

Lemma occurs_at_take sub content rest e q :
  q + length sub ≤ e → e ≤ length content →
  occurs_at sub (take e content ++ rest) q ↔ occurs_at sub content q.
Proof.
  intros Hq He. unfold occurs_at, slice.
  rewrite take_app_le by (rewrite length_take; lia).
  rewrite take_take, Nat.min_l by lia.
  rewrite length_app, length_take. split; intros [? ?]; split; done || lia.
Qed.

Lemma first_from_take sub content rest e start p :
  p + length sub ≤ e → e ≤ length content →
  first_from sub content start p →
  first_from sub (take e content ++ rest) start p.
Proof.
  intros Hp He (Hstart & Hocc & Hmin).
  split; [done|]. split; [by apply occurs_at_take|].
  intros q Hq Hq'. apply (Hmin q Hq).
  by apply (occurs_at_take sub content rest e q); [lia|done|].
Qed.

(** The bounds of the region depend on the text up to the region's end
    only. *)
Lemma locate_take content rest i e :
  locate content = Some (i, e) →
  locate (take e content ++ rest) = Some (i, e).
Proof.
  intros Hloc. pose proof (locate_bounds _ _ _ Hloc) as Hb.
  apply locate_Some in Hloc as (j & k & Hi & Hj & Hk & ->).
  destruct (locate_apart _ _ _ _ Hi Hj Hk) as [Hij Hjk].
  apply locate_Some. exists j, k.
  split; [apply first_from_take; [lia|lia|done]|].
  split; [apply first_from_take; [lia|lia|done]|].
  split; [apply first_from_take; [simpl; lia|lia|done]|done].
Qed.

End Passthrough.

(** X7. The text after the region plays no part in a run and passes
    through it: if the lookups bound the region [i, e) in a text, then on
    any text that agrees with it up to [e], whatever follows, the run
    finds the same region, prints the same old section, and leaves the
    same text before the region, the replacement block, and what
    followed.  Standard output is taken to be able to encode the old
    section, and the device to work. *)
Theorem text_after_region_passes_through
    (w : world) (content rest : text) (i e : nat) :
  locate content = Some (i, e) →
  fs w !! filepath = Some (File true true (take e content ++ rest)) →
  can_print w (slice content i e) = true →
  disk w = Works →
  outcome w = Ok ()
  ∧ fs (after w) !! filepath
    = Some (File true true (take i content ++ new_section ++ rest))
  ∧ trace (after w) = trace w ++
      [ EvOpen filepath ModeR;
        EvPrint (lit "=== OLD SECTION ===");
        EvPrint (slice content i e);
        EvPrint (lit "=== END OLD ===");
        EvOpen filepath ModeW;
        EvWrite filepath (take i content ++ new_section ++ rest);
        EvPrint (lit "Done! Feeds updated successfully.") ].
Proof.
  intros Hloc Hf Hp Hd. pose proof (locate_bounds _ _ _ Hloc) as Hb.
  pose proof (locate_take content rest i e Hloc) as Hloc'.
  assert (Hsl : slice (take e content ++ rest) i e = slice content i e).
  { unfold slice.
    rewrite take_app_le by (rewrite length_take; lia).
    by rewrite take_take, Nat.min_l by lia. }
  rewrite <- Hsl in Hp.
  pose proof (main_done w _ i e Hf Hloc' Hp Hd) as Hm.
  assert (Hspl : spliced (take e content ++ rest) i e
                 = take i content ++ new_section ++ rest).
  { unfold spliced.
    rewrite take_app_le by (rewrite length_take; lia).
    rewrite take_take, Nat.min_l by lia.
    by rewrite (drop_app_length' (take e content) rest e)
      by (rewrite length_take; lia). }
  unfold outcome, after. rewrite Hm. cbn [fst snd fs trace set_fs extend].
  split; [done|]. split.
  - by rewrite lookup_insert_eq, Hspl.
  - unfold completed, printed. by rewrite Hspl, Hsl.
Qed.

Lemma text_after_region_passes_through_sample :
  (locate sample = Some (91, 222)
   ∧ fs other_tail_world !! filepath
     = Some (File true true
               (take 222 sample ++ ln "" ++
                ln "  // nothing the locator looks for" ++ ln "];"))
   ∧ can_print other_tail_world (slice sample 91 222) = true
   ∧ disk other_tail_world = Works)
  ∧ outcome other_tail_world = Ok ()
  ∧ fs (after other_tail_world) !! filepath
    = Some (File true true
              (take 91 sample ++ new_section ++ ln "" ++
               ln "  // nothing the locator looks for" ++ ln "];")).
Proof.
  assert (Hloc : locate sample = Some (91, 222)) by (vm_compute; reflexivity).
  assert (Hf : fs other_tail_world !! filepath
               = Some (File true true
                         (take 222 sample ++ ln "" ++
                          ln "  // nothing the locator looks for" ++ ln "];")))
    by (vm_compute; reflexivity).
  assert (Hp : can_print other_tail_world (slice sample 91 222) = true)
    by (vm_compute; reflexivity).
  assert (Hd : disk other_tail_world = Works) by reflexivity.
  split; [by repeat split|].
  destruct (text_after_region_passes_through other_tail_world sample _ 91 222
              Hloc Hf Hp Hd) as (Hok & Hfs & _).
  by split.
Defined.
